(** * ARM-to-micro-IR translator: model and properties

    A shallow embedding of [src/core/arm/jit/ir.h] and
    [src/core/arm/jit/translate.cpp].

    - 32-bit unsigned values ([u32], [unsigned]) are integers in [Z]; every
      addition performed by the code is written with its wrap-around.
    - [std::shared_ptr<MicroValue>] handles are positions in the instruction
      list of the block that owns the node: two handles denote the same SSA
      node exactly when they are equal.
    - The translator object is threaded explicitly through a small
      state-and-abort monad; an access past the end of [reg_values] and a
      failed [ASSERT] abort the computation.
    - The [while (true)] loop of [Translate] is a fixpoint on a fuel
      argument; running out of fuel is reported as [None] and is kept apart
      from the aborts of the program itself. *)

From Stdlib Require Import ZArith Lia Bool.
From stdpp Require Import base list.

Local Open Scope Z_scope.

(** ** Machine integers *)

Definition u32 (x : Z) : Z := x mod 2 ^ 32.

(** ** The decoder's vocabulary ([core/arm/jit/decoder/decoder.h]) *)

Module ArmDecoder.

(** Modelled from the spec: the header declaring the decoder's field types
    is not part of the sources at hand.  The sixteen ARM condition codes
    in their architectural order. *)
Inductive Cond : Set :=
  EQ | NE | CS | CC | MI | PL | VS | VC | HI | LS | GE | LT | GT | LE | AL | NV.

(** Modelled from the spec: guest registers, indices 0 to 14 and the
    program counter at index 15. *)
Inductive Register : Set :=
  R0 | R1 | R2 | R3 | R4 | R5 | R6 | R7 | R8 | R9 | R10 | R11 | R12 | R13 | R14 | PC.

(** Modelled from the spec: [static_cast<size_t>(reg)], the index of a
    register of the absent enumeration. *)
Definition Register_index (reg : Register) : nat :=
  match reg with
  | R0 => 0 | R1 => 1 | R2 => 2 | R3 => 3 | R4 => 4 | R5 => 5 | R6 => 6
  | R7 => 7 | R8 => 8 | R9 => 9 | R10 => 10 | R11 => 11 | R12 => 12
  | R13 => 13 | R14 => 14 | PC => 15
  end%nat.

(** Modelled from the spec: [static_cast<ArmReg>(i)] on a four-bit register
    field of the absent enumeration. *)
Definition Register_of_index (i : nat) : Register :=
  match i with
  | 0 => R0 | 1 => R1 | 2 => R2 | 3 => R3 | 4 => R4 | 5 => R5 | 6 => R6
  | 7 => R7 | 8 => R8 | 9 => R9 | 10 => R10 | 11 => R11 | 12 => R12
  | 13 => R13 | 14 => R14 | _ => PC
  end%nat.

(** Modelled from the spec: shift kinds of the data-processing operands. *)
Inductive ShiftType : Set := LSL | LSR | ASR | ROR.

(** Modelled from the spec: the rotation enumeration of the extension
    instructions, carried as its underlying value. *)
Definition SignExtendRotation : Set := Z.

(** Modelled from the spec: the immediate fields and the register list of
    the absent header, unsigned integers of the width in their name. *)
Definition Imm4 : Set := Z.
Definition Imm5 : Set := Z.
Definition Imm8 : Set := Z.
Definition Imm11 : Set := Z.
Definition Imm12 : Set := Z.
Definition Imm24 : Set := Z.
Definition RegisterList : Set := Z.

(** A decoded instruction: the visitor callback that [Visit] invokes,
    together with the decoded fields it passes.  One constructor per
    member of [ArmDecoder::Visitor] overridden in [translate.cpp]; the
    second overload of [thumb_B] is primed. *)
Inductive Instruction : Set :=
(* Branch instructions *)
| B (cond : Cond) (imm24 : Imm24)
| BL (cond : Cond) (imm24 : Imm24)
| BLX_imm (H : bool) (imm24 : Imm24)
| BLX_reg (cond : Cond) (Rm_index : Register)
| BX (cond : Cond) (Rm_index : Register)
| BXJ (cond : Cond) (Rm_index : Register)
(* Coprocessor instructions *)
| CDP
| LDC
| MCR
| MCRR
| MRC
| MRRC
| STC
(* Data processing instructions *)
| ADC_imm (cond : Cond) (S : bool) (Rn_index : Register) (Rd_index : Register) (rotate : Z) (imm8 : Imm8)
| ADC_reg (cond : Cond) (S : bool) (Rn_index : Register) (Rd_index : Register) (imm5 : Imm5) (shift : ShiftType) (Rm_index : Register)
| ADC_rsr (cond : Cond) (S : bool) (Rn_index : Register) (Rd_index : Register) (Rs_index : Register) (shift : ShiftType) (Rm_index : Register)
| ADD_imm (cond : Cond) (S : bool) (Rn_index : Register) (Rd_index : Register) (rotate : Z) (imm8 : Imm8)
| ADD_reg (cond : Cond) (S : bool) (Rn_index : Register) (Rd_index : Register) (imm5 : Imm5) (shift : ShiftType) (Rm_index : Register)
| ADD_rsr (cond : Cond) (S : bool) (Rn_index : Register) (Rd_index : Register) (Rs_index : Register) (shift : ShiftType) (Rm_index : Register)
| AND_imm (cond : Cond) (S : bool) (Rn_index : Register) (Rd_index : Register) (rotate : Z) (imm8 : Imm8)
| AND_reg (cond : Cond) (S : bool) (Rn_index : Register) (Rd_index : Register) (imm5 : Imm5) (shift : ShiftType) (Rm_index : Register)
| AND_rsr (cond : Cond) (S : bool) (Rn_index : Register) (Rd_index : Register) (Rs_index : Register) (shift : ShiftType) (Rm_index : Register)
| BIC_imm (cond : Cond) (S : bool) (Rn_index : Register) (Rd_index : Register) (rotate : Z) (imm8 : Imm8)
| BIC_reg (cond : Cond) (S : bool) (Rn_index : Register) (Rd_index : Register) (imm5 : Imm5) (shift : ShiftType) (Rm_index : Register)
| BIC_rsr (cond : Cond) (S : bool) (Rn_index : Register) (Rd_index : Register) (Rs_index : Register) (shift : ShiftType) (Rm_index : Register)
| CMN_imm (cond : Cond) (Rn_index : Register) (rotate : Z) (imm8 : Imm8)
| CMN_reg (cond : Cond) (Rn_index : Register) (imm5 : Imm5) (shift : ShiftType) (Rm_index : Register)
| CMN_rsr (cond : Cond) (Rn_index : Register) (Rs_index : Register) (shift : ShiftType) (Rm_index : Register)
| CMP_imm (cond : Cond) (Rn_index : Register) (rotate : Z) (imm8 : Imm8)
| CMP_reg (cond : Cond) (Rn_index : Register) (imm5 : Imm5) (shift : ShiftType) (Rm_index : Register)
| CMP_rsr (cond : Cond) (Rn_index : Register) (Rs_index : Register) (shift : ShiftType) (Rm_index : Register)
| EOR_imm (cond : Cond) (S : bool) (Rn_index : Register) (Rd_index : Register) (rotate : Z) (imm8 : Imm8)
| EOR_reg (cond : Cond) (S : bool) (Rn_index : Register) (Rd_index : Register) (imm5 : Imm5) (shift : ShiftType) (Rm_index : Register)
| EOR_rsr (cond : Cond) (S : bool) (Rn_index : Register) (Rd_index : Register) (Rs_index : Register) (shift : ShiftType) (Rm_index : Register)
| MOV_imm (cond : Cond) (S : bool) (Rd_index : Register) (rotate : Z) (imm8 : Imm8)
| MOV_reg (cond : Cond) (S : bool) (Rd_index : Register) (imm5 : Imm5) (shift : ShiftType) (Rm_index : Register)
| MOV_rsr (cond : Cond) (S : bool) (Rd_index : Register) (Rs_index : Register) (shift : ShiftType) (Rm_index : Register)
| MVN_imm (cond : Cond) (S : bool) (Rd_index : Register) (rotate : Z) (imm8 : Imm8)
| MVN_reg (cond : Cond) (S : bool) (Rd_index : Register) (imm5 : Imm5) (shift : ShiftType) (Rm_index : Register)
| MVN_rsr (cond : Cond) (S : bool) (Rd_index : Register) (Rs_index : Register) (shift : ShiftType) (Rm_index : Register)
| ORR_imm (cond : Cond) (S : bool) (Rn_index : Register) (Rd_index : Register) (rotate : Z) (imm8 : Imm8)
| ORR_reg (cond : Cond) (S : bool) (Rn_index : Register) (Rd_index : Register) (imm5 : Imm5) (shift : ShiftType) (Rm_index : Register)
| ORR_rsr (cond : Cond) (S : bool) (Rn_index : Register) (Rd_index : Register) (Rs_index : Register) (shift : ShiftType) (Rm_index : Register)
| RSB_imm (cond : Cond) (S : bool) (Rn_index : Register) (Rd_index : Register) (rotate : Z) (imm8 : Imm8)
| RSB_reg (cond : Cond) (S : bool) (Rn_index : Register) (Rd_index : Register) (imm5 : Imm5) (shift : ShiftType) (Rm_index : Register)
| RSB_rsr (cond : Cond) (S : bool) (Rn_index : Register) (Rd_index : Register) (Rs_index : Register) (shift : ShiftType) (Rm_index : Register)
| RSC_imm (cond : Cond) (S : bool) (Rn_index : Register) (Rd_index : Register) (rotate : Z) (imm8 : Imm8)
| RSC_reg (cond : Cond) (S : bool) (Rn_index : Register) (Rd_index : Register) (imm5 : Imm5) (shift : ShiftType) (Rm_index : Register)
| RSC_rsr (cond : Cond) (S : bool) (Rn_index : Register) (Rd_index : Register) (Rs_index : Register) (shift : ShiftType) (Rm_index : Register)
| SBC_imm (cond : Cond) (S : bool) (Rn_index : Register) (Rd_index : Register) (rotate : Z) (imm8 : Imm8)
| SBC_reg (cond : Cond) (S : bool) (Rn_index : Register) (Rd_index : Register) (imm5 : Imm5) (shift : ShiftType) (Rm_index : Register)
| SBC_rsr (cond : Cond) (S : bool) (Rn_index : Register) (Rd_index : Register) (Rs_index : Register) (shift : ShiftType) (Rm_index : Register)
| SUB_imm (cond : Cond) (S : bool) (Rn_index : Register) (Rd_index : Register) (rotate : Z) (imm8 : Imm8)
| SUB_reg (cond : Cond) (S : bool) (Rn_index : Register) (Rd_index : Register) (imm5 : Imm5) (shift : ShiftType) (Rm_index : Register)
| SUB_rsr (cond : Cond) (S : bool) (Rn_index : Register) (Rd_index : Register) (Rs_index : Register) (shift : ShiftType) (Rm_index : Register)
| TEQ_imm (cond : Cond) (Rn_index : Register) (rotate : Z) (imm8 : Imm8)
| TEQ_reg (cond : Cond) (Rn_index : Register) (imm5 : Imm5) (shift : ShiftType) (Rm_index : Register)
| TEQ_rsr (cond : Cond) (Rn_index : Register) (Rs_index : Register) (shift : ShiftType) (Rm_index : Register)
| TST_imm (cond : Cond) (Rn_index : Register) (rotate : Z) (imm8 : Imm8)
| TST_reg (cond : Cond) (Rn_index : Register) (imm5 : Imm5) (shift : ShiftType) (Rm_index : Register)
| TST_rsr (cond : Cond) (Rn_index : Register) (Rs_index : Register) (shift : ShiftType) (Rm_index : Register)
(* Exception generation instructions *)
| BKPT (cond : Cond) (imm12 : Imm12) (imm4 : Imm4)
| SVC (cond : Cond) (imm24 : Imm24)
| UDF
(* Extension functions *)
| SXTAB (cond : Cond) (Rn_index : Register) (Rd_index : Register) (rotate : SignExtendRotation) (Rm_index : Register)
| SXTAB16 (cond : Cond) (Rn_index : Register) (Rd_index : Register) (rotate : SignExtendRotation) (Rm_index : Register)
| SXTAH (cond : Cond) (Rn_index : Register) (Rd_index : Register) (rotate : SignExtendRotation) (Rm_index : Register)
| SXTB (cond : Cond) (Rd_index : Register) (rotate : SignExtendRotation) (Rm_index : Register)
| SXTB16 (cond : Cond) (Rd_index : Register) (rotate : SignExtendRotation) (Rm_index : Register)
| SXTH (cond : Cond) (Rd_index : Register) (rotate : SignExtendRotation) (Rm_index : Register)
| UXTAB (cond : Cond) (Rn_index : Register) (Rd_index : Register) (rotate : SignExtendRotation) (Rm_index : Register)
| UXTAB16 (cond : Cond) (Rn_index : Register) (Rd_index : Register) (rotate : SignExtendRotation) (Rm_index : Register)
| UXTAH (cond : Cond) (Rn_index : Register) (Rd_index : Register) (rotate : SignExtendRotation) (Rm_index : Register)
| UXTB (cond : Cond) (Rd_index : Register) (rotate : SignExtendRotation) (Rm_index : Register)
| UXTB16 (cond : Cond) (Rd_index : Register) (rotate : SignExtendRotation) (Rm_index : Register)
| UXTH (cond : Cond) (Rd_index : Register) (rotate : SignExtendRotation) (Rm_index : Register)
(* Hint instructions *)
| PLD
| SEV
| WFE
| WFI
| YIELD
(* Load/Store instructions *)
| LDR_imm (cond : Cond) (P : bool) (U : bool) (W : bool) (Rn_index : Register) (Rd_index : Register) (imm11 : Imm11)
| LDR_reg (cond : Cond) (P : bool) (U : bool) (W : bool) (Rn_index : Register) (Rd_index : Register) (imm5 : Imm5) (shift : ShiftType) (Rm_index : Register)
| LDRB_imm (cond : Cond) (P : bool) (U : bool) (W : bool) (Rn_index : Register) (Rd_index : Register) (imm11 : Imm11)
| LDRB_reg (cond : Cond) (P : bool) (U : bool) (W : bool) (Rn_index : Register) (Rd_index : Register) (imm5 : Imm5) (shift : ShiftType) (Rm_index : Register)
| LDRBT
| LDRD_imm (cond : Cond) (P : bool) (U : bool) (W : bool) (Rn_index : Register) (Rd_index : Register) (imm8a : Imm4) (imm8b : Imm4)
| LDRD_reg (cond : Cond) (P : bool) (U : bool) (W : bool) (Rn_index : Register) (Rd_index : Register) (Rm_index : Register)
| LDRH_imm (cond : Cond) (P : bool) (U : bool) (W : bool) (Rn_index : Register) (Rd_index : Register) (imm8a : Imm4) (imm8b : Imm4)
| LDRH_reg (cond : Cond) (P : bool) (U : bool) (W : bool) (Rn_index : Register) (Rd_index : Register) (Rm_index : Register)
| LDRHT
| LDRSB_imm (cond : Cond) (P : bool) (U : bool) (W : bool) (Rn_index : Register) (Rd_index : Register) (imm8a : Imm4) (imm8b : Imm4)
| LDRSB_reg (cond : Cond) (P : bool) (U : bool) (W : bool) (Rn_index : Register) (Rd_index : Register) (Rm_index : Register)
| LDRSBT
| LDRSH_imm (cond : Cond) (P : bool) (U : bool) (W : bool) (Rn_index : Register) (Rd_index : Register) (imm8a : Imm4) (imm8b : Imm4)
| LDRSH_reg (cond : Cond) (P : bool) (U : bool) (W : bool) (Rn_index : Register) (Rd_index : Register) (Rm_index : Register)
| LDRSHT
| LDRT
| STR_imm (cond : Cond) (P : bool) (U : bool) (W : bool) (Rn_index : Register) (Rd_index : Register) (imm11 : Imm11)
| STR_reg (cond : Cond) (P : bool) (U : bool) (W : bool) (Rn_index : Register) (Rd_index : Register) (imm5 : Imm5) (shift : ShiftType) (Rm_index : Register)
| STRB_imm (cond : Cond) (P : bool) (U : bool) (W : bool) (Rn_index : Register) (Rd_index : Register) (imm11 : Imm11)
| STRB_reg (cond : Cond) (P : bool) (U : bool) (W : bool) (Rn_index : Register) (Rd_index : Register) (imm5 : Imm5) (shift : ShiftType) (Rm_index : Register)
| STRBT
| STRD_imm (cond : Cond) (P : bool) (U : bool) (W : bool) (Rn_index : Register) (Rd_index : Register) (imm8a : Imm4) (imm8b : Imm4)
| STRD_reg (cond : Cond) (P : bool) (U : bool) (W : bool) (Rn_index : Register) (Rd_index : Register) (Rm_index : Register)
| STRH_imm (cond : Cond) (P : bool) (U : bool) (W : bool) (Rn_index : Register) (Rd_index : Register) (imm8a : Imm4) (imm8b : Imm4)
| STRH_reg (cond : Cond) (P : bool) (U : bool) (W : bool) (Rn_index : Register) (Rd_index : Register) (Rm_index : Register)
| STRHT
| STRT
(* Load/Store multiple instructions *)
| LDM (cond : Cond) (P : bool) (U : bool) (W : bool) (Rn_index : Register) (list : RegisterList)
| LDM_usr
| LDM_eret
| STM (cond : Cond) (P : bool) (U : bool) (W : bool) (Rn_index : Register) (list : RegisterList)
| STM_usr
(* Miscellaneous instructions *)
| CLZ (cond : Cond) (Rd_index : Register) (Rm_index : Register)
| NOP
| SEL (cond : Cond) (Rn_index : Register) (Rd_index : Register) (Rm_index : Register)
(* Unsigned sum of absolute difference functions *)
| USAD8 (cond : Cond) (Rd_index : Register) (Rm_index : Register) (Rn_index : Register)
| USADA8 (cond : Cond) (Rd_index : Register) (Ra : Register) (Rm_index : Register) (Rn_index : Register)
(* Packing instructions *)
| PKHBT (cond : Cond) (Rn_index : Register) (Rd_index : Register) (imm5 : Imm5) (Rm_index : Register)
| PKHTB (cond : Cond) (Rn_index : Register) (Rd_index : Register) (imm5 : Imm5) (Rm_index : Register)
(* Reversal instructions *)
| REV (cond : Cond) (Rd_index : Register) (Rm_index : Register)
| REV16 (cond : Cond) (Rd_index : Register) (Rm_index : Register)
| REVSH (cond : Cond) (Rd_index : Register) (Rm_index : Register)
(* Saturation instructions *)
| SSAT (cond : Cond) (sat_imm : Imm5) (Rd_index : Register) (imm5 : Imm5) (sh : bool) (Rn_index : Register)
| SSAT16 (cond : Cond) (sat_imm : Imm4) (Rd_index : Register) (Rn_index : Register)
| USAT (cond : Cond) (sat_imm : Imm5) (Rd_index : Register) (imm5 : Imm5) (sh : bool) (Rn_index : Register)
| USAT16 (cond : Cond) (sat_imm : Imm4) (Rd_index : Register) (Rn_index : Register)
(* Multiply (Normal) instructions *)
| MLA (cond : Cond) (S : bool) (Rd_index : Register) (Ra : Register) (Rm_index : Register) (Rn_index : Register)
| MUL (cond : Cond) (S : bool) (Rd_index : Register) (Rm_index : Register) (Rn_index : Register)
(* Multiply (Long) instructions *)
| SMLAL (cond : Cond) (S : bool) (Rd_indexHi : Register) (Rd_indexLo : Register) (Rm_index : Register) (Rn_index : Register)
| SMULL (cond : Cond) (S : bool) (Rd_indexHi : Register) (Rd_indexLo : Register) (Rm_index : Register) (Rn_index : Register)
| UMAAL (cond : Cond) (Rd_indexHi : Register) (Rd_indexLo : Register) (Rm_index : Register) (Rn_index : Register)
| UMLAL (cond : Cond) (S : bool) (Rd_indexHi : Register) (Rd_indexLo : Register) (Rm_index : Register) (Rn_index : Register)
| UMULL (cond : Cond) (S : bool) (Rd_indexHi : Register) (Rd_indexLo : Register) (Rm_index : Register) (Rn_index : Register)
(* Multiply (Halfword) instructions *)
| SMLALxy (cond : Cond) (Rd_indexHi : Register) (Rd_indexLo : Register) (Rm_index : Register) (M : bool) (N : bool) (Rn_index : Register)
| SMLAxy (cond : Cond) (Rd_index : Register) (Ra : Register) (Rm_index : Register) (M : bool) (N : bool) (Rn_index : Register)
| SMULxy (cond : Cond) (Rd_index : Register) (Rm_index : Register) (M : bool) (N : bool) (Rn_index : Register)
(* Multiply (word by halfword) instructions *)
| SMLAWy (cond : Cond) (Rd_index : Register) (Ra : Register) (Rm_index : Register) (M : bool) (Rn_index : Register)
| SMULWy (cond : Cond) (Rd_index : Register) (Rm_index : Register) (M : bool) (Rn_index : Register)
(* Multiply (Most significant word) instructions *)
| SMMLA (cond : Cond) (Rd_index : Register) (Ra : Register) (Rm_index : Register) (R : bool) (Rn_index : Register)
| SMMLS (cond : Cond) (Rd_index : Register) (Ra : Register) (Rm_index : Register) (R : bool) (Rn_index : Register)
| SMMUL (cond : Cond) (Rd_index : Register) (Rm_index : Register) (R : bool) (Rn_index : Register)
(* Multiply (Dual) instructions *)
| SMLAD (cond : Cond) (Rd_index : Register) (Ra : Register) (Rm_index : Register) (M : bool) (Rn_index : Register)
| SMLALD (cond : Cond) (Rd_indexHi : Register) (Rd_indexLo : Register) (Rm_index : Register) (M : bool) (Rn_index : Register)
| SMLSD (cond : Cond) (Rd_index : Register) (Ra : Register) (Rm_index : Register) (M : bool) (Rn_index : Register)
| SMLSLD (cond : Cond) (Rd_indexHi : Register) (Rd_indexLo : Register) (Rm_index : Register) (M : bool) (Rn_index : Register)
| SMUAD (cond : Cond) (Rd_index : Register) (Rm_index : Register) (M : bool) (Rn_index : Register)
| SMUSD (cond : Cond) (Rd_index : Register) (Rm_index : Register) (M : bool) (Rn_index : Register)
(* Parallel Add/Subtract (Modulo arithmetic) instructions *)
| SADD8 (cond : Cond) (Rn_index : Register) (Rd_index : Register) (Rm_index : Register)
| SADD16 (cond : Cond) (Rn_index : Register) (Rd_index : Register) (Rm_index : Register)
| SASX (cond : Cond) (Rn_index : Register) (Rd_index : Register) (Rm_index : Register)
| SSAX (cond : Cond) (Rn_index : Register) (Rd_index : Register) (Rm_index : Register)
| SSUB8 (cond : Cond) (Rn_index : Register) (Rd_index : Register) (Rm_index : Register)
| SSUB16 (cond : Cond) (Rn_index : Register) (Rd_index : Register) (Rm_index : Register)
| UADD8 (cond : Cond) (Rn_index : Register) (Rd_index : Register) (Rm_index : Register)
| UADD16 (cond : Cond) (Rn_index : Register) (Rd_index : Register) (Rm_index : Register)
| UASX (cond : Cond) (Rn_index : Register) (Rd_index : Register) (Rm_index : Register)
| USAX (cond : Cond) (Rn_index : Register) (Rd_index : Register) (Rm_index : Register)
| USUB8 (cond : Cond) (Rn_index : Register) (Rd_index : Register) (Rm_index : Register)
| USUB16 (cond : Cond) (Rn_index : Register) (Rd_index : Register) (Rm_index : Register)
(* Parallel Add/Subtract (Saturating) instructions *)
| QADD8 (cond : Cond) (Rn_index : Register) (Rd_index : Register) (Rm_index : Register)
| QADD16 (cond : Cond) (Rn_index : Register) (Rd_index : Register) (Rm_index : Register)
| QASX (cond : Cond) (Rn_index : Register) (Rd_index : Register) (Rm_index : Register)
| QSAX (cond : Cond) (Rn_index : Register) (Rd_index : Register) (Rm_index : Register)
| QSUB8 (cond : Cond) (Rn_index : Register) (Rd_index : Register) (Rm_index : Register)
| QSUB16 (cond : Cond) (Rn_index : Register) (Rd_index : Register) (Rm_index : Register)
| UQADD8 (cond : Cond) (Rn_index : Register) (Rd_index : Register) (Rm_index : Register)
| UQADD16 (cond : Cond) (Rn_index : Register) (Rd_index : Register) (Rm_index : Register)
| UQASX (cond : Cond) (Rn_index : Register) (Rd_index : Register) (Rm_index : Register)
| UQSAX (cond : Cond) (Rn_index : Register) (Rd_index : Register) (Rm_index : Register)
| UQSUB8 (cond : Cond) (Rn_index : Register) (Rd_index : Register) (Rm_index : Register)
| UQSUB16 (cond : Cond) (Rn_index : Register) (Rd_index : Register) (Rm_index : Register)
(* Parallel Add/Subtract (Halving) instructions *)
| SHADD8 (cond : Cond) (Rn_index : Register) (Rd_index : Register) (Rm_index : Register)
| SHADD16 (cond : Cond) (Rn_index : Register) (Rd_index : Register) (Rm_index : Register)
| SHASX (cond : Cond) (Rn_index : Register) (Rd_index : Register) (Rm_index : Register)
| SHSAX (cond : Cond) (Rn_index : Register) (Rd_index : Register) (Rm_index : Register)
| SHSUB8 (cond : Cond) (Rn_index : Register) (Rd_index : Register) (Rm_index : Register)
| SHSUB16 (cond : Cond) (Rn_index : Register) (Rd_index : Register) (Rm_index : Register)
| UHADD8 (cond : Cond) (Rn_index : Register) (Rd_index : Register) (Rm_index : Register)
| UHADD16 (cond : Cond) (Rn_index : Register) (Rd_index : Register) (Rm_index : Register)
| UHASX (cond : Cond) (Rn_index : Register) (Rd_index : Register) (Rm_index : Register)
| UHSAX (cond : Cond) (Rn_index : Register) (Rd_index : Register) (Rm_index : Register)
| UHSUB8 (cond : Cond) (Rn_index : Register) (Rd_index : Register) (Rm_index : Register)
| UHSUB16 (cond : Cond) (Rn_index : Register) (Rd_index : Register) (Rm_index : Register)
(* Saturated Add/Subtract instructions *)
| QADD (cond : Cond) (Rn_index : Register) (Rd_index : Register) (Rm_index : Register)
| QSUB (cond : Cond) (Rn_index : Register) (Rd_index : Register) (Rm_index : Register)
| QDADD (cond : Cond) (Rn_index : Register) (Rd_index : Register) (Rm_index : Register)
| QDSUB (cond : Cond) (Rn_index : Register) (Rd_index : Register) (Rm_index : Register)
(* Synchronization Primitive instructions *)
| CLREX
| LDREX (cond : Cond) (Rn_index : Register) (Rd_index : Register)
| LDREXB (cond : Cond) (Rn_index : Register) (Rd_index : Register)
| LDREXD (cond : Cond) (Rn_index : Register) (Rd_index : Register)
| LDREXH (cond : Cond) (Rn_index : Register) (Rd_index : Register)
| STREX (cond : Cond) (Rn_index : Register) (Rd_index : Register) (Rm_index : Register)
| STREXB (cond : Cond) (Rn_index : Register) (Rd_index : Register) (Rm_index : Register)
| STREXD (cond : Cond) (Rn_index : Register) (Rd_index : Register) (Rm_index : Register)
| STREXH (cond : Cond) (Rn_index : Register) (Rd_index : Register) (Rm_index : Register)
| SWP (cond : Cond) (Rn_index : Register) (Rd_index : Register) (Rm_index : Register)
| SWPB (cond : Cond) (Rn_index : Register) (Rd_index : Register) (Rm_index : Register)
(* Status register access instructions *)
| CPS
| MRS
| MSR
| RFE
| SETEND (E : bool)
| SRS
(* Thumb specific instructions *)
| thumb_B (cond : Cond) (imm8 : Imm8)
| thumb_B' (imm11 : Imm11)
| thumb_BLX_prefix (imm11 : Imm11)
| thumb_BLX_suffix (L : bool) (imm11 : Imm11).

#[global] Instance Cond_eq_dec : EqDecision Cond.
Proof. solve_decision. Defined.

#[global] Instance Register_eq_dec : EqDecision Register.
Proof. solve_decision. Defined.

End ArmDecoder.

Definition ArmReg := ArmDecoder.Register.
Definition ArmImm8 := ArmDecoder.Imm8.
Definition ArmImm24 := ArmDecoder.Imm24.
Definition Cond := ArmDecoder.Cond.

(** ** Location descriptors ([core/arm/jit/common.h]) *)

(** Modelled from the spec: the header is not part of the sources at hand.
    The field names and their order are those of the brace initialiser in
    [ConditionPassed]. *)
Record LocationDescriptor : Set := mkLocation {
  arm_pc : Z;
  TFlag : bool;
  EFlag : bool;
  cond : Cond
}.

#[global] Instance LocationDescriptor_eq_dec : EqDecision LocationDescriptor.
Proof. solve_decision. Defined.

(** ** The intermediate representation ([ir.h]) *)

Module MicroTerm.

Inductive MicroTerminal : Set :=
| ReturnToDispatch
| PopRSBHint
| Interpret (next : LocationDescriptor)
| LinkBlock (next : LocationDescriptor)
| LinkBlockFast (next : LocationDescriptor)
| If (if_ : Cond) (then_ else_ : MicroTerminal).

(** A default-constructed [boost::variant] holds a default-constructed
    value of its first alternative. *)
Definition default : MicroTerminal := ReturnToDispatch.

End MicroTerm.

Abbreviation MicroTerminal := MicroTerm.MicroTerminal.

Module MicroArmFlags.

Definition t : Set := Z.

Definition N : t := Z.shiftl 1 0.
Definition Z : t := Z.shiftl 1 1.
Definition C : t := Z.shiftl 1 2.
Definition V : t := Z.shiftl 1 3.
Definition Q : t := Z.shiftl 1 4.
Definition GE : t := Z.shiftl 1 5.

Definition None : t := 0.
Definition NZC : t := Z.lor (Z.lor N Z) C.
Definition NZCV : t := Z.lor (Z.lor (Z.lor N Z) C) V.
Definition Any : t := Z.lor (Z.lor (Z.lor (Z.lor (Z.lor N Z) C) V) Q) GE.

(** [a] is a subset of [b]: no bit of [a] lies outside [b]. *)
Definition subset (a b : t) : bool := Z.eqb (Z.land a b) a.

End MicroArmFlags.

Inductive MicroType : Set := Void | U32.

Module MicroOp.

Inductive t : Set :=
(* Simple Values *)
| ConstU32
| GetGPR
(* Cleanup *)
| SetGPR
(* Hints *)
| PushRSBHint
(* ARM PC *)
| AluWritePC
| LoadWritePC
(* ARM ALU *)
| Add
| AddWithCarry
| Sub
| And
| Eor
| Not
| LSL
| LSR
| ASR
| ROR
| RRX
| CountLeadingZeros
(* ARM Synchronisation *)
| ClearExclusive
(* Memory *)
| Read32.

End MicroOp.

Abbreviation MicroOp := MicroOp.t.

(** Information about an opcode.  [read_flags] is left out: no operation of
    the translator consults it. *)
Record MicroOpInfo : Set := {
  op : MicroOp;
  ret_type : MicroType;
  default_write_flags : MicroArmFlags.t;
  types : list MicroType
}.

Definition NumArgs (info : MicroOpInfo) : nat := length (types info).

(** Modelled from the spec: [GetMicroOpInfo] is declared in [ir.h] and
    defined elsewhere.  Return types and default write-flags are those of
    the spec's opcode table; they agree with the comments on the members of
    [MicroOp] in [ir.h], which also give the operands. *)
Definition GetMicroOpInfo (o : MicroOp) : MicroOpInfo :=
  match o with
  | MicroOp.ConstU32 => {| op := o; ret_type := U32; default_write_flags := MicroArmFlags.None; types := [] |}
  | MicroOp.GetGPR => {| op := o; ret_type := U32; default_write_flags := MicroArmFlags.None; types := [] |}
  | MicroOp.SetGPR => {| op := o; ret_type := Void; default_write_flags := MicroArmFlags.None; types := [U32] |}
  | MicroOp.PushRSBHint => {| op := o; ret_type := Void; default_write_flags := MicroArmFlags.None; types := [U32] |}
  | MicroOp.AluWritePC => {| op := o; ret_type := Void; default_write_flags := MicroArmFlags.None; types := [U32] |}
  | MicroOp.LoadWritePC => {| op := o; ret_type := Void; default_write_flags := MicroArmFlags.None; types := [U32] |}
  | MicroOp.Add => {| op := o; ret_type := U32; default_write_flags := MicroArmFlags.NZCV; types := [U32; U32] |}
  | MicroOp.AddWithCarry => {| op := o; ret_type := U32; default_write_flags := MicroArmFlags.NZCV; types := [U32; U32] |}
  | MicroOp.Sub => {| op := o; ret_type := U32; default_write_flags := MicroArmFlags.NZCV; types := [U32; U32] |}
  | MicroOp.And => {| op := o; ret_type := U32; default_write_flags := MicroArmFlags.NZC; types := [U32; U32] |}
  | MicroOp.Eor => {| op := o; ret_type := U32; default_write_flags := MicroArmFlags.NZC; types := [U32; U32] |}
  | MicroOp.Not => {| op := o; ret_type := U32; default_write_flags := MicroArmFlags.None; types := [U32] |}
  | MicroOp.LSL => {| op := o; ret_type := U32; default_write_flags := MicroArmFlags.C; types := [U32; U32] |}
  | MicroOp.LSR => {| op := o; ret_type := U32; default_write_flags := MicroArmFlags.C; types := [U32; U32] |}
  | MicroOp.ASR => {| op := o; ret_type := U32; default_write_flags := MicroArmFlags.C; types := [U32; U32] |}
  | MicroOp.ROR => {| op := o; ret_type := U32; default_write_flags := MicroArmFlags.C; types := [U32; U32] |}
  | MicroOp.RRX => {| op := o; ret_type := U32; default_write_flags := MicroArmFlags.None; types := [U32] |}
  | MicroOp.CountLeadingZeros => {| op := o; ret_type := U32; default_write_flags := MicroArmFlags.None; types := [U32] |}
  | MicroOp.ClearExclusive => {| op := o; ret_type := Void; default_write_flags := MicroArmFlags.None; types := [] |}
  | MicroOp.Read32 => {| op := o; ret_type := U32; default_write_flags := MicroArmFlags.None; types := [U32] |}
  end.

(** A handle on a node: its position in the owning block's body. *)
Definition ValueRef : Set := nat.

(** The four classes derived from [MicroValue].  The use lists maintained by
    [AddUse] and [RemoveUse] are not represented: the translator never reads
    them. *)
Inductive MicroValue : Set :=
| MicroConstU32 (value : Z)
| MicroGetGPR (reg : ArmReg)
| MicroSetGPR (reg : ArmReg) (arg : ValueRef)
| MicroInst (op : MicroOp) (args : list ValueRef) (write_flags : MicroArmFlags.t).

Definition GetOp (v : MicroValue) : MicroOp :=
  match v with
  | MicroConstU32 _ => MicroOp.ConstU32
  | MicroGetGPR _ => MicroOp.GetGPR
  | MicroSetGPR _ _ => MicroOp.SetGPR
  | MicroInst o _ _ => o
  end.

(** [MicroValue::WriteFlags] and its override in [MicroInst]. *)
Definition WriteFlags (v : MicroValue) : MicroArmFlags.t :=
  match v with
  | MicroInst _ _ wf => wf
  | _ => MicroArmFlags.None
  end.

(** [MicroInst::SetWriteFlags]: a plain assignment. *)
Definition SetWriteFlags (flags : MicroArmFlags.t) (v : MicroValue) : MicroValue :=
  match v with
  | MicroInst o args _ => MicroInst o args flags
  | _ => v
  end.

Record MicroBlock : Set := mkBlock {
  location : LocationDescriptor;
  instructions : list MicroValue;
  terminal : MicroTerminal
}.

(** [MicroBlock::MicroBlock(location)]: empty body, default terminal. *)
Definition MicroBlock_new (loc : LocationDescriptor) : MicroBlock :=
  {| location := loc; instructions := []; terminal := MicroTerm.default |}.

(** ** The IR builder ([core/arm/jit/ir_builder.h]) *)

Module MicroBuilder.

(** Modelled from the spec: the builder's header is not part of the sources
    at hand.  The builder owns the block under construction. *)
Record t : Set := mk { block : MicroBlock }.

(** Modelled from the spec: [MicroBuilder(location)], as [ir(location)] in
    the constructor of the translator. *)
Definition new (loc : LocationDescriptor) : t := {| block := MicroBlock_new loc |}.

(** Modelled from the spec: the builder appends a node to the body, in
    emission order, and hands back the handle of the new node. *)
Definition emit (v : MicroValue) (b : t) : ValueRef * t :=
  (length (instructions (block b)),
   {| block := {| location := location (block b);
                  instructions := instructions (block b) ++ [v];
                  terminal := terminal (block b) |} |}).

(** Modelled from the spec: [ir.ConstU32(value)] emits a constant. *)
Definition ConstU32 (value : Z) : t -> ValueRef * t := emit (MicroConstU32 value).

(** Modelled from the spec: [ir.GetGPR(reg)] emits a register read. *)
Definition GetGPR (reg : ArmReg) : t -> ValueRef * t := emit (MicroGetGPR reg).

(** Modelled from the spec: the constructor of [MicroInst], declared in
    [ir.h] and defined elsewhere, leaves the write-flags at the default of
    the opcode. *)
Definition MicroInst_new (o : MicroOp) (args : list ValueRef) : MicroValue :=
  MicroInst o args (default_write_flags (GetMicroOpInfo o)).

(** Modelled from the spec: [ir.Inst(op, args..., write_flags)] constructs
    the node, sets its write-flags with [SetWriteFlags] and emits it. *)
Definition Inst (o : MicroOp) (args : list ValueRef) (write_flags : MicroArmFlags.t)
  : t -> ValueRef * t :=
  emit (SetWriteFlags write_flags (MicroInst_new o args)).

(** Modelled from the spec: [ir.SetTerm(term)] stores the terminal of the
    block. *)
Definition SetTerm (term : MicroTerminal) (b : t) : t :=
  {| block := {| location := location (block b);
                 instructions := instructions (block b);
                 terminal := term |} |}.

(** Modelled from the spec: the terminal [Interpret] of a location. *)
Definition TermInterpret (loc : LocationDescriptor) : MicroTerminal := MicroTerm.Interpret loc.

(** Modelled from the spec: the terminal [LinkBlock] of a location. *)
Definition TermLinkBlock (loc : LocationDescriptor) : MicroTerminal := MicroTerm.LinkBlock loc.

End MicroBuilder.

(** ** Aborts and the translator monad *)

Inductive Fault : Set :=
| OutOfBounds      (* an index past the end of a [std::array] *)
| AssertionFailed. (* a failed [ASSERT] *)

Inductive Result (A : Type) : Type :=
| Ok (a : A)
| Abort (f : Fault).

Arguments Ok {A} a.
Arguments Abort {A} f.

(** The members of [ArmTranslator]. *)
Record ArmTranslator : Set := mkTranslator {
  ir : MicroBuilder.t;
  current : LocationDescriptor;
  instructions_translated : Z;
  stop_compilation : bool;
  reg_values : list (option ValueRef)
}.

(** [ArmTranslator::ArmTranslator(location)] with the default member
    initialisers: fifteen null handles in [reg_values]. *)
Definition ArmTranslator_new (loc : LocationDescriptor) : ArmTranslator :=
  {| ir := MicroBuilder.new loc;
     current := loc;
     instructions_translated := 0;
     stop_compilation := false;
     reg_values := replicate 15 None |}.

Definition M (A : Type) : Type := ArmTranslator -> Result (A * ArmTranslator).

Definition ret {A} (a : A) : M A := fun t => Ok (a, t).

Definition bind {A B} (m : M A) (k : A -> M B) : M B :=
  fun t => match m t with
           | Ok (a, t') => k a t'
           | Abort f => Abort f
           end.

Definition abort {A} (f : Fault) : M A := fun _ => Abort f.

Definition get : M ArmTranslator := fun t => Ok (t, t).

Definition modify (f : ArmTranslator -> ArmTranslator) : M unit := fun t => Ok (tt, f t).

Declare Scope translator_scope.
Delimit Scope translator_scope with tr.
Notation "x <- m ;; k" := (bind m (fun x => k))
  (at level 100, m at next level, right associativity) : translator_scope.
Notation "m ;; k" := (bind m (fun _ => k))
  (at level 100, right associativity) : translator_scope.

Definition set_ir (b : MicroBuilder.t) (t : ArmTranslator) : ArmTranslator :=
  {| ir := b; current := current t;
     instructions_translated := instructions_translated t;
     stop_compilation := stop_compilation t; reg_values := reg_values t |}.

Definition set_current (loc : LocationDescriptor) (t : ArmTranslator) : ArmTranslator :=
  {| ir := ir t; current := loc;
     instructions_translated := instructions_translated t;
     stop_compilation := stop_compilation t; reg_values := reg_values t |}.

Definition set_instructions_translated (n : Z) (t : ArmTranslator) : ArmTranslator :=
  {| ir := ir t; current := current t;
     instructions_translated := n;
     stop_compilation := stop_compilation t; reg_values := reg_values t |}.

Definition set_stop_compilation (b : bool) (t : ArmTranslator) : ArmTranslator :=
  {| ir := ir t; current := current t;
     instructions_translated := instructions_translated t;
     stop_compilation := b; reg_values := reg_values t |}.

Definition set_reg_values (l : list (option ValueRef)) (t : ArmTranslator) : ArmTranslator :=
  {| ir := ir t; current := current t;
     instructions_translated := instructions_translated t;
     stop_compilation := stop_compilation t; reg_values := l |}.

Definition set_arm_pc (pc : Z) (loc : LocationDescriptor) : LocationDescriptor :=
  {| arm_pc := pc; TFlag := TFlag loc; EFlag := EFlag loc; cond := cond loc |}.

(** Calls on the [ir] member. *)
Definition ir_emit (f : MicroBuilder.t -> ValueRef * MicroBuilder.t) : M ValueRef :=
  fun t => let '(v, b) := f (ir t) in Ok (v, set_ir b t).

Definition ir_SetTerm (term : MicroTerminal) : M unit :=
  modify (fun t => set_ir (MicroBuilder.SetTerm term (ir t)) t).

(** ** The translator ([translate.cpp]) *)

Section Translator.

(** [Memory::Read32], [ArmDecoder::DecodeArm] and [ArmExpandImm] are supplied
    by the rest of the emulator. *)
Variable Read32 : Z -> Z.
Variable DecodeArm : Z -> option ArmDecoder.Instruction.
Variable ArmExpandImm : ArmImm8 -> Z -> Z.

Local Open Scope translator_scope.

Definition GetReg (reg : ArmReg) : M ValueRef :=
  if decide (reg = ArmDecoder.PC) then
    t <- get ;; ir_emit (MicroBuilder.ConstU32 (u32 (arm_pc (current t) + 8)))
  else
    let reg_index := ArmDecoder.Register_index reg in
    t <- get ;;
    match reg_values t !! reg_index with
    | None => abort OutOfBounds
    | Some None =>
        v <- ir_emit (MicroBuilder.GetGPR reg) ;;
        modify (fun t => set_reg_values (<[reg_index := Some v]> (reg_values t)) t) ;;
        ret v
    | Some (Some v) => ret v
    end.

(** [value] is a handle on a node, never a null pointer: every caller passes
    a handle it has just received from the builder. *)
Definition SetReg (reg : ArmReg) (value : ValueRef) : M unit :=
  let reg_index := ArmDecoder.Register_index reg in
  t <- get ;;
  match reg_values t !! reg_index with
  | None => abort OutOfBounds
  | Some _ => modify (set_reg_values (<[reg_index := Some value]> (reg_values t)))
  end.

Definition FallbackToInterpreter : M unit :=
  t <- get ;;
  ir_SetTerm (MicroBuilder.TermInterpret (current t)) ;;
  modify (set_stop_compilation true).

Definition ConditionPassed (cond' : Cond) : M bool :=
  t <- get ;;
  if decide (cond' = cond (current t)) then ret true
  else
    ir_SetTerm (MicroBuilder.TermLinkBlock
                  {| arm_pc := arm_pc (current t); TFlag := TFlag (current t);
                     EFlag := EFlag (current t); cond := cond' |}) ;;
    modify (set_stop_compilation true) ;;
    ret false.

(** Modelled from the spec: [ADD_imm] calls [ALUWritePC], which
    [translate.cpp] neither declares nor defines.  It emits the [AluWritePC]
    micro-op on the new value of the program counter and terminates the
    block; control returns to the dispatcher, the target being known only at
    run time. *)
Definition ALUWritePC (new_pc : ValueRef) : M unit :=
  ir_emit (MicroBuilder.Inst MicroOp.AluWritePC [new_pc]
             (default_write_flags (GetMicroOpInfo MicroOp.AluWritePC))) ;;
  ir_SetTerm MicroTerm.ReturnToDispatch ;;
  modify (set_stop_compilation true).

(* Branch instructions *)

Definition B (cond : Cond) (imm24 : ArmImm24) : M unit :=
  (* TODO: Handle cond, dude. *)
  t <- get ;;
  let next := current t in
  let next := set_arm_pc (u32 (arm_pc next + imm24)) next in (* TODO: Sign extend this. *)
  ir_SetTerm (MicroBuilder.TermLinkBlock next) ;;
  modify (set_stop_compilation true).

(* Data processing instructions *)

Definition ADD_imm (cond : Cond) (S : bool) (n d : ArmReg) (rotate : Z) (imm8 : ArmImm8)
  : M unit :=
  (* Decode *)
  let expanded_imm := ArmExpandImm imm8 rotate in
  let set_flags := if S then MicroArmFlags.NZCV else MicroArmFlags.None in
  (* "Execute" *)
  passed <- ConditionPassed cond ;;
  (if passed : bool then
     Rn <- GetReg n ;;
     imm32 <- ir_emit (MicroBuilder.ConstU32 expanded_imm) ;;
     result <- ir_emit (MicroBuilder.Inst MicroOp.Add [Rn; imm32] set_flags) ;;
     if decide (d = ArmDecoder.PC) then ALUWritePC result
     else SetReg d result
   else ret tt) ;;
  modify (fun t => set_current (set_arm_pc (u32 (arm_pc (current t) + 4)) (current t)) t).

(** [inst_info->Visit(this, inst)]: the callback of the decoded instruction.
    Every handler but [B] and [ADD_imm] has the body
    [FallbackToInterpreter();] and ignores its arguments. *)
Definition Visit (inst_info : ArmDecoder.Instruction) : M unit :=
  match inst_info with
  | ArmDecoder.B cond imm24 => B cond imm24
  | ArmDecoder.ADD_imm cond S_ Rn_index Rd_index rotate imm8 =>
      ADD_imm cond S_ Rn_index Rd_index rotate imm8
  | ArmDecoder.BL _ _ => FallbackToInterpreter
  | ArmDecoder.BLX_imm _ _ => FallbackToInterpreter
  | ArmDecoder.BLX_reg _ _ => FallbackToInterpreter
  | ArmDecoder.BX _ _ => FallbackToInterpreter
  | ArmDecoder.BXJ _ _ => FallbackToInterpreter
  | ArmDecoder.CDP => FallbackToInterpreter
  | ArmDecoder.LDC => FallbackToInterpreter
  | ArmDecoder.MCR => FallbackToInterpreter
  | ArmDecoder.MCRR => FallbackToInterpreter
  | ArmDecoder.MRC => FallbackToInterpreter
  | ArmDecoder.MRRC => FallbackToInterpreter
  | ArmDecoder.STC => FallbackToInterpreter
  | ArmDecoder.ADC_imm _ _ _ _ _ _ => FallbackToInterpreter
  | ArmDecoder.ADC_reg _ _ _ _ _ _ _ => FallbackToInterpreter
  | ArmDecoder.ADC_rsr _ _ _ _ _ _ _ => FallbackToInterpreter
  | ArmDecoder.ADD_reg _ _ _ _ _ _ _ => FallbackToInterpreter
  | ArmDecoder.ADD_rsr _ _ _ _ _ _ _ => FallbackToInterpreter
  | ArmDecoder.AND_imm _ _ _ _ _ _ => FallbackToInterpreter
  | ArmDecoder.AND_reg _ _ _ _ _ _ _ => FallbackToInterpreter
  | ArmDecoder.AND_rsr _ _ _ _ _ _ _ => FallbackToInterpreter
  | ArmDecoder.BIC_imm _ _ _ _ _ _ => FallbackToInterpreter
  | ArmDecoder.BIC_reg _ _ _ _ _ _ _ => FallbackToInterpreter
  | ArmDecoder.BIC_rsr _ _ _ _ _ _ _ => FallbackToInterpreter
  | ArmDecoder.CMN_imm _ _ _ _ => FallbackToInterpreter
  | ArmDecoder.CMN_reg _ _ _ _ _ => FallbackToInterpreter
  | ArmDecoder.CMN_rsr _ _ _ _ _ => FallbackToInterpreter
  | ArmDecoder.CMP_imm _ _ _ _ => FallbackToInterpreter
  | ArmDecoder.CMP_reg _ _ _ _ _ => FallbackToInterpreter
  | ArmDecoder.CMP_rsr _ _ _ _ _ => FallbackToInterpreter
  | ArmDecoder.EOR_imm _ _ _ _ _ _ => FallbackToInterpreter
  | ArmDecoder.EOR_reg _ _ _ _ _ _ _ => FallbackToInterpreter
  | ArmDecoder.EOR_rsr _ _ _ _ _ _ _ => FallbackToInterpreter
  | ArmDecoder.MOV_imm _ _ _ _ _ => FallbackToInterpreter
  | ArmDecoder.MOV_reg _ _ _ _ _ _ => FallbackToInterpreter
  | ArmDecoder.MOV_rsr _ _ _ _ _ _ => FallbackToInterpreter
  | ArmDecoder.MVN_imm _ _ _ _ _ => FallbackToInterpreter
  | ArmDecoder.MVN_reg _ _ _ _ _ _ => FallbackToInterpreter
  | ArmDecoder.MVN_rsr _ _ _ _ _ _ => FallbackToInterpreter
  | ArmDecoder.ORR_imm _ _ _ _ _ _ => FallbackToInterpreter
  | ArmDecoder.ORR_reg _ _ _ _ _ _ _ => FallbackToInterpreter
  | ArmDecoder.ORR_rsr _ _ _ _ _ _ _ => FallbackToInterpreter
  | ArmDecoder.RSB_imm _ _ _ _ _ _ => FallbackToInterpreter
  | ArmDecoder.RSB_reg _ _ _ _ _ _ _ => FallbackToInterpreter
  | ArmDecoder.RSB_rsr _ _ _ _ _ _ _ => FallbackToInterpreter
  | ArmDecoder.RSC_imm _ _ _ _ _ _ => FallbackToInterpreter
  | ArmDecoder.RSC_reg _ _ _ _ _ _ _ => FallbackToInterpreter
  | ArmDecoder.RSC_rsr _ _ _ _ _ _ _ => FallbackToInterpreter
  | ArmDecoder.SBC_imm _ _ _ _ _ _ => FallbackToInterpreter
  | ArmDecoder.SBC_reg _ _ _ _ _ _ _ => FallbackToInterpreter
  | ArmDecoder.SBC_rsr _ _ _ _ _ _ _ => FallbackToInterpreter
  | ArmDecoder.SUB_imm _ _ _ _ _ _ => FallbackToInterpreter
  | ArmDecoder.SUB_reg _ _ _ _ _ _ _ => FallbackToInterpreter
  | ArmDecoder.SUB_rsr _ _ _ _ _ _ _ => FallbackToInterpreter
  | ArmDecoder.TEQ_imm _ _ _ _ => FallbackToInterpreter
  | ArmDecoder.TEQ_reg _ _ _ _ _ => FallbackToInterpreter
  | ArmDecoder.TEQ_rsr _ _ _ _ _ => FallbackToInterpreter
  | ArmDecoder.TST_imm _ _ _ _ => FallbackToInterpreter
  | ArmDecoder.TST_reg _ _ _ _ _ => FallbackToInterpreter
  | ArmDecoder.TST_rsr _ _ _ _ _ => FallbackToInterpreter
  | ArmDecoder.BKPT _ _ _ => FallbackToInterpreter
  | ArmDecoder.SVC _ _ => FallbackToInterpreter
  | ArmDecoder.UDF => FallbackToInterpreter
  | ArmDecoder.SXTAB _ _ _ _ _ => FallbackToInterpreter
  | ArmDecoder.SXTAB16 _ _ _ _ _ => FallbackToInterpreter
  | ArmDecoder.SXTAH _ _ _ _ _ => FallbackToInterpreter
  | ArmDecoder.SXTB _ _ _ _ => FallbackToInterpreter
  | ArmDecoder.SXTB16 _ _ _ _ => FallbackToInterpreter
  | ArmDecoder.SXTH _ _ _ _ => FallbackToInterpreter
  | ArmDecoder.UXTAB _ _ _ _ _ => FallbackToInterpreter
  | ArmDecoder.UXTAB16 _ _ _ _ _ => FallbackToInterpreter
  | ArmDecoder.UXTAH _ _ _ _ _ => FallbackToInterpreter
  | ArmDecoder.UXTB _ _ _ _ => FallbackToInterpreter
  | ArmDecoder.UXTB16 _ _ _ _ => FallbackToInterpreter
  | ArmDecoder.UXTH _ _ _ _ => FallbackToInterpreter
  | ArmDecoder.PLD => FallbackToInterpreter
  | ArmDecoder.SEV => FallbackToInterpreter
  | ArmDecoder.WFE => FallbackToInterpreter
  | ArmDecoder.WFI => FallbackToInterpreter
  | ArmDecoder.YIELD => FallbackToInterpreter
  | ArmDecoder.LDR_imm _ _ _ _ _ _ _ => FallbackToInterpreter
  | ArmDecoder.LDR_reg _ _ _ _ _ _ _ _ _ => FallbackToInterpreter
  | ArmDecoder.LDRB_imm _ _ _ _ _ _ _ => FallbackToInterpreter
  | ArmDecoder.LDRB_reg _ _ _ _ _ _ _ _ _ => FallbackToInterpreter
  | ArmDecoder.LDRBT => FallbackToInterpreter
  | ArmDecoder.LDRD_imm _ _ _ _ _ _ _ _ => FallbackToInterpreter
  | ArmDecoder.LDRD_reg _ _ _ _ _ _ _ => FallbackToInterpreter
  | ArmDecoder.LDRH_imm _ _ _ _ _ _ _ _ => FallbackToInterpreter
  | ArmDecoder.LDRH_reg _ _ _ _ _ _ _ => FallbackToInterpreter
  | ArmDecoder.LDRHT => FallbackToInterpreter
  | ArmDecoder.LDRSB_imm _ _ _ _ _ _ _ _ => FallbackToInterpreter
  | ArmDecoder.LDRSB_reg _ _ _ _ _ _ _ => FallbackToInterpreter
  | ArmDecoder.LDRSBT => FallbackToInterpreter
  | ArmDecoder.LDRSH_imm _ _ _ _ _ _ _ _ => FallbackToInterpreter
  | ArmDecoder.LDRSH_reg _ _ _ _ _ _ _ => FallbackToInterpreter
  | ArmDecoder.LDRSHT => FallbackToInterpreter
  | ArmDecoder.LDRT => FallbackToInterpreter
  | ArmDecoder.STR_imm _ _ _ _ _ _ _ => FallbackToInterpreter
  | ArmDecoder.STR_reg _ _ _ _ _ _ _ _ _ => FallbackToInterpreter
  | ArmDecoder.STRB_imm _ _ _ _ _ _ _ => FallbackToInterpreter
  | ArmDecoder.STRB_reg _ _ _ _ _ _ _ _ _ => FallbackToInterpreter
  | ArmDecoder.STRBT => FallbackToInterpreter
  | ArmDecoder.STRD_imm _ _ _ _ _ _ _ _ => FallbackToInterpreter
  | ArmDecoder.STRD_reg _ _ _ _ _ _ _ => FallbackToInterpreter
  | ArmDecoder.STRH_imm _ _ _ _ _ _ _ _ => FallbackToInterpreter
  | ArmDecoder.STRH_reg _ _ _ _ _ _ _ => FallbackToInterpreter
  | ArmDecoder.STRHT => FallbackToInterpreter
  | ArmDecoder.STRT => FallbackToInterpreter
  | ArmDecoder.LDM _ _ _ _ _ _ => FallbackToInterpreter
  | ArmDecoder.LDM_usr => FallbackToInterpreter
  | ArmDecoder.LDM_eret => FallbackToInterpreter
  | ArmDecoder.STM _ _ _ _ _ _ => FallbackToInterpreter
  | ArmDecoder.STM_usr => FallbackToInterpreter
  | ArmDecoder.CLZ _ _ _ => FallbackToInterpreter
  | ArmDecoder.NOP => FallbackToInterpreter
  | ArmDecoder.SEL _ _ _ _ => FallbackToInterpreter
  | ArmDecoder.USAD8 _ _ _ _ => FallbackToInterpreter
  | ArmDecoder.USADA8 _ _ _ _ _ => FallbackToInterpreter
  | ArmDecoder.PKHBT _ _ _ _ _ => FallbackToInterpreter
  | ArmDecoder.PKHTB _ _ _ _ _ => FallbackToInterpreter
  | ArmDecoder.REV _ _ _ => FallbackToInterpreter
  | ArmDecoder.REV16 _ _ _ => FallbackToInterpreter
  | ArmDecoder.REVSH _ _ _ => FallbackToInterpreter
  | ArmDecoder.SSAT _ _ _ _ _ _ => FallbackToInterpreter
  | ArmDecoder.SSAT16 _ _ _ _ => FallbackToInterpreter
  | ArmDecoder.USAT _ _ _ _ _ _ => FallbackToInterpreter
  | ArmDecoder.USAT16 _ _ _ _ => FallbackToInterpreter
  | ArmDecoder.MLA _ _ _ _ _ _ => FallbackToInterpreter
  | ArmDecoder.MUL _ _ _ _ _ => FallbackToInterpreter
  | ArmDecoder.SMLAL _ _ _ _ _ _ => FallbackToInterpreter
  | ArmDecoder.SMULL _ _ _ _ _ _ => FallbackToInterpreter
  | ArmDecoder.UMAAL _ _ _ _ _ => FallbackToInterpreter
  | ArmDecoder.UMLAL _ _ _ _ _ _ => FallbackToInterpreter
  | ArmDecoder.UMULL _ _ _ _ _ _ => FallbackToInterpreter
  | ArmDecoder.SMLALxy _ _ _ _ _ _ _ => FallbackToInterpreter
  | ArmDecoder.SMLAxy _ _ _ _ _ _ _ => FallbackToInterpreter
  | ArmDecoder.SMULxy _ _ _ _ _ _ => FallbackToInterpreter
  | ArmDecoder.SMLAWy _ _ _ _ _ _ => FallbackToInterpreter
  | ArmDecoder.SMULWy _ _ _ _ _ => FallbackToInterpreter
  | ArmDecoder.SMMLA _ _ _ _ _ _ => FallbackToInterpreter
  | ArmDecoder.SMMLS _ _ _ _ _ _ => FallbackToInterpreter
  | ArmDecoder.SMMUL _ _ _ _ _ => FallbackToInterpreter
  | ArmDecoder.SMLAD _ _ _ _ _ _ => FallbackToInterpreter
  | ArmDecoder.SMLALD _ _ _ _ _ _ => FallbackToInterpreter
  | ArmDecoder.SMLSD _ _ _ _ _ _ => FallbackToInterpreter
  | ArmDecoder.SMLSLD _ _ _ _ _ _ => FallbackToInterpreter
  | ArmDecoder.SMUAD _ _ _ _ _ => FallbackToInterpreter
  | ArmDecoder.SMUSD _ _ _ _ _ => FallbackToInterpreter
  | ArmDecoder.SADD8 _ _ _ _ => FallbackToInterpreter
  | ArmDecoder.SADD16 _ _ _ _ => FallbackToInterpreter
  | ArmDecoder.SASX _ _ _ _ => FallbackToInterpreter
  | ArmDecoder.SSAX _ _ _ _ => FallbackToInterpreter
  | ArmDecoder.SSUB8 _ _ _ _ => FallbackToInterpreter
  | ArmDecoder.SSUB16 _ _ _ _ => FallbackToInterpreter
  | ArmDecoder.UADD8 _ _ _ _ => FallbackToInterpreter
  | ArmDecoder.UADD16 _ _ _ _ => FallbackToInterpreter
  | ArmDecoder.UASX _ _ _ _ => FallbackToInterpreter
  | ArmDecoder.USAX _ _ _ _ => FallbackToInterpreter
  | ArmDecoder.USUB8 _ _ _ _ => FallbackToInterpreter
  | ArmDecoder.USUB16 _ _ _ _ => FallbackToInterpreter
  | ArmDecoder.QADD8 _ _ _ _ => FallbackToInterpreter
  | ArmDecoder.QADD16 _ _ _ _ => FallbackToInterpreter
  | ArmDecoder.QASX _ _ _ _ => FallbackToInterpreter
  | ArmDecoder.QSAX _ _ _ _ => FallbackToInterpreter
  | ArmDecoder.QSUB8 _ _ _ _ => FallbackToInterpreter
  | ArmDecoder.QSUB16 _ _ _ _ => FallbackToInterpreter
  | ArmDecoder.UQADD8 _ _ _ _ => FallbackToInterpreter
  | ArmDecoder.UQADD16 _ _ _ _ => FallbackToInterpreter
  | ArmDecoder.UQASX _ _ _ _ => FallbackToInterpreter
  | ArmDecoder.UQSAX _ _ _ _ => FallbackToInterpreter
  | ArmDecoder.UQSUB8 _ _ _ _ => FallbackToInterpreter
  | ArmDecoder.UQSUB16 _ _ _ _ => FallbackToInterpreter
  | ArmDecoder.SHADD8 _ _ _ _ => FallbackToInterpreter
  | ArmDecoder.SHADD16 _ _ _ _ => FallbackToInterpreter
  | ArmDecoder.SHASX _ _ _ _ => FallbackToInterpreter
  | ArmDecoder.SHSAX _ _ _ _ => FallbackToInterpreter
  | ArmDecoder.SHSUB8 _ _ _ _ => FallbackToInterpreter
  | ArmDecoder.SHSUB16 _ _ _ _ => FallbackToInterpreter
  | ArmDecoder.UHADD8 _ _ _ _ => FallbackToInterpreter
  | ArmDecoder.UHADD16 _ _ _ _ => FallbackToInterpreter
  | ArmDecoder.UHASX _ _ _ _ => FallbackToInterpreter
  | ArmDecoder.UHSAX _ _ _ _ => FallbackToInterpreter
  | ArmDecoder.UHSUB8 _ _ _ _ => FallbackToInterpreter
  | ArmDecoder.UHSUB16 _ _ _ _ => FallbackToInterpreter
  | ArmDecoder.QADD _ _ _ _ => FallbackToInterpreter
  | ArmDecoder.QSUB _ _ _ _ => FallbackToInterpreter
  | ArmDecoder.QDADD _ _ _ _ => FallbackToInterpreter
  | ArmDecoder.QDSUB _ _ _ _ => FallbackToInterpreter
  | ArmDecoder.CLREX => FallbackToInterpreter
  | ArmDecoder.LDREX _ _ _ => FallbackToInterpreter
  | ArmDecoder.LDREXB _ _ _ => FallbackToInterpreter
  | ArmDecoder.LDREXD _ _ _ => FallbackToInterpreter
  | ArmDecoder.LDREXH _ _ _ => FallbackToInterpreter
  | ArmDecoder.STREX _ _ _ _ => FallbackToInterpreter
  | ArmDecoder.STREXB _ _ _ _ => FallbackToInterpreter
  | ArmDecoder.STREXD _ _ _ _ => FallbackToInterpreter
  | ArmDecoder.STREXH _ _ _ _ => FallbackToInterpreter
  | ArmDecoder.SWP _ _ _ _ => FallbackToInterpreter
  | ArmDecoder.SWPB _ _ _ _ => FallbackToInterpreter
  | ArmDecoder.CPS => FallbackToInterpreter
  | ArmDecoder.MRS => FallbackToInterpreter
  | ArmDecoder.MSR => FallbackToInterpreter
  | ArmDecoder.RFE => FallbackToInterpreter
  | ArmDecoder.SETEND _ => FallbackToInterpreter
  | ArmDecoder.SRS => FallbackToInterpreter
  | ArmDecoder.thumb_B _ _ => FallbackToInterpreter
  | ArmDecoder.thumb_B' _ => FallbackToInterpreter
  | ArmDecoder.thumb_BLX_prefix _ => FallbackToInterpreter
  | ArmDecoder.thumb_BLX_suffix _ _ => FallbackToInterpreter
  end.

Definition TranslateSingleArmInstruction : M unit :=
  t <- get ;;
  let inst := Read32 (Z.land (arm_pc (current t)) 0xFFFFFFFC) in
  match DecodeArm inst with
  | None =>
      (* TODO: Log message *)
      FallbackToInterpreter
  | Some inst_info => Visit inst_info
  end.

(** The [while (true)] loop of [Translate]; [None] when [fuel] iterations
    did not reach a [break]. *)
Fixpoint Translate_loop (fuel : nat) (t : ArmTranslator) : option (Result ArmTranslator) :=
  match fuel with
  | O => None
  | S fuel' =>
      match TranslateSingleArmInstruction t with
      | Abort f => Some (Abort f)
      | Ok (_, t) =>
          let t := set_instructions_translated (u32 (instructions_translated t + 1)) t in
          if stop_compilation t then Some (Ok t)
          else if negb (Z.land (arm_pc (current t)) 0xFFF =? 0) then Some (Ok t)
          else Translate_loop fuel' t
      end
  end.

(** The [for] loop over [reg_values] that follows the main loop; its body is
    the comment [// ir.SetGPR(static_cast<ArmReg>(i), arm_reg[i]);]. *)
Definition Translate_writeback (t : ArmTranslator) : ArmTranslator :=
  foldl (fun t (i : nat) => t) t (seq 0 (length (reg_values t))).

(** [ArmTranslator::Translate], returning the translator as it stands at the
    [return] statement; the block returned is [block (ir t)]. *)
Definition Translate_state (fuel : nat) (t : ArmTranslator) : option (Result ArmTranslator) :=
  if stop_compilation t then Some (Abort AssertionFailed)
  else
    let t := set_ir {| MicroBuilder.block :=
                         {| location := current t;
                            instructions := instructions (MicroBuilder.block (ir t));
                            terminal := terminal (MicroBuilder.block (ir t)) |} |} t in
    match Translate_loop fuel t with
    | None => None
    | Some (Abort f) => Some (Abort f)
    | Some (Ok t) =>
        let t := Translate_writeback t in
        Some (Ok (set_stop_compilation true t))
    end.

(** The free function [Translate(location)]. *)
Definition Translate (fuel : nat) (location : LocationDescriptor) : option (Result MicroBlock) :=
  match Translate_state fuel (ArmTranslator_new location) with
  | None => None
  | Some (Abort f) => Some (Abort f)
  | Some (Ok t) => Some (Ok (MicroBuilder.block (ir t)))
  end.

End Translator.

(** ** A concrete environment for the examples

    A decoder for three ARM encodings (immediate ADD, B and BL with a
    condition other than NV), the architectural immediate expansion, and a
    guest memory given by a list of (address, word) pairs that reads zero
    elsewhere. *)

Module Sample.

Definition bits (w lo len : Z) : Z := Z.land (Z.shiftr w lo) (Z.ones len).

Definition Cond_of_bits (c : Z) : Cond :=
  match c with
  | 0 => ArmDecoder.EQ | 1 => ArmDecoder.NE | 2 => ArmDecoder.CS | 3 => ArmDecoder.CC
  | 4 => ArmDecoder.MI | 5 => ArmDecoder.PL | 6 => ArmDecoder.VS | 7 => ArmDecoder.VC
  | 8 => ArmDecoder.HI | 9 => ArmDecoder.LS | 10 => ArmDecoder.GE | 11 => ArmDecoder.LT
  | 12 => ArmDecoder.GT | 13 => ArmDecoder.LE | 14 => ArmDecoder.AL | _ => ArmDecoder.NV
  end.

Definition Register_of_bits (r : Z) : ArmReg := ArmDecoder.Register_of_index (Z.to_nat r).

Definition DecodeArm (w : Z) : option ArmDecoder.Instruction :=
  if bits w 28 4 =? 15 then None
  else if bits w 24 4 =? 10 then
    Some (ArmDecoder.B (Cond_of_bits (bits w 28 4)) (bits w 0 24))
  else if bits w 24 4 =? 11 then
    Some (ArmDecoder.BL (Cond_of_bits (bits w 28 4)) (bits w 0 24))
  else if bits w 21 7 =? 20 then
    Some (ArmDecoder.ADD_imm (Cond_of_bits (bits w 28 4)) (Z.testbit w 20)
            (Register_of_bits (bits w 16 4)) (Register_of_bits (bits w 12 4))
            (bits w 8 4) (bits w 0 8))
  else None.

Definition ArmExpandImm (imm8 : ArmImm8) (rotate : Z) : Z :=
  u32 (Z.lor (Z.shiftr imm8 (2 * rotate)) (Z.shiftl imm8 (32 - 2 * rotate))).

Definition Read32 (mem : list (Z * Z)) (addr : Z) : Z :=
  match List.find (fun aw => fst aw =? addr) mem with
  | Some aw => snd aw
  | None => 0
  end.

Definition Translate (mem : list (Z * Z)) : nat -> LocationDescriptor -> option (Result MicroBlock) :=
  Translate (Read32 mem) DecodeArm ArmExpandImm.

Definition Translate_state (mem : list (Z * Z)) (fuel : nat) (loc : LocationDescriptor)
  : option (Result ArmTranslator) :=
  Translate_state (Read32 mem) DecodeArm ArmExpandImm fuel (ArmTranslator_new loc).

(** ARM state, little-endian data, entered under the condition [c]. *)
Definition arm_location (pc : Z) (c : Cond) : LocationDescriptor :=
  {| arm_pc := pc; TFlag := false; EFlag := false; cond := c |}.

(** The location at 0x1000 under the condition [AL]. *)
Definition AL_1000 : LocationDescriptor := arm_location 0x1000 ArmDecoder.AL.

(** [ADD r1, r2, #5] at 0x1000. *)
Definition add_program : list (Z * Z) := [(0x1000, 0xE2821005)].

(** [ADDNE r1, r2, #5] at 0x1000. *)
Definition addne_program : list (Z * Z) := [(0x1000, 0x12821005)].

(** [ADD pc, pc, #5] at 0x1000. *)
Definition add_pc_program : list (Z * Z) := [(0x1000, 0xE28FF005)].

(** [ADD r1, r2, #5] in the last word of a page, [ADD r1, r1, #1] in the
    first word of the next. *)
Definition page_cross_program : list (Z * Z) :=
  [(0x1FFC, 0xE2821005); (0x2000, 0xE2811001)].

(** [B] with a zero offset field at 0x1000: architecturally a branch to
    0x1008. *)
Definition branch_program : list (Z * Z) := [(0x1000, 0xEA000000)].

(** [BLNE] at 0x1000. *)
Definition blne_program : list (Z * Z) := [(0x1000, 0x1B000000)].

End Sample.


(** * Properties *)

(** ** Shapes of the nodes the translator emits *)

(** The nodes that a handler of [translate.cpp] can append to the body. *)
Inductive emitted : MicroValue -> Prop :=
| emitted_const value : emitted (MicroConstU32 value)
| emitted_get reg : reg <> ArmDecoder.PC -> emitted (MicroGetGPR reg)
| emitted_add Rn imm32 (S : bool) :
    emitted (MicroInst MicroOp.Add [Rn; imm32]
               (if S then MicroArmFlags.NZCV else MicroArmFlags.None))
| emitted_alu_write_pc v :
    emitted (MicroInst MicroOp.AluWritePC [v] MicroArmFlags.None).

Abbreviation body t := (instructions (MicroBuilder.block (ir t))).
Abbreviation term t := (terminal (MicroBuilder.block (ir t))).

(** The register cache has the fifteen slots of its [std::array]. *)
Definition cache_wf (t : ArmTranslator) : Prop := length (reg_values t) = 15%nat.

(** [t'] is [t] after some emissions and cache updates: everything else is
    as it was. *)
Record extends (t t' : ArmTranslator) : Prop := {
  ext_current : current t' = current t;
  ext_stop : stop_compilation t' = stop_compilation t;
  ext_count : instructions_translated t' = instructions_translated t;
  ext_term : term t' = term t;
  ext_location : location (MicroBuilder.block (ir t')) = location (MicroBuilder.block (ir t));
  ext_cache : length (reg_values t') = length (reg_values t);
  ext_body : exists l, body t' = body t ++ l /\ Forall emitted l
}.

Lemma extends_refl t : extends t t.
Proof.
  split; try reflexivity. exists []. split; [by rewrite app_nil_r | constructor].
Qed.

Lemma extends_trans t1 t2 t3 : extends t1 t2 -> extends t2 t3 -> extends t1 t3.
Proof.
  intros [] []. split; try congruence.
  destruct ext_body0 as (l1 & E1 & F1), ext_body1 as (l2 & E2 & F2).
  exists (l1 ++ l2). split.
  - rewrite E2, E1. by rewrite app_assoc.
  - by apply Forall_app.
Qed.

Lemma extends_emit v t :
  emitted v ->
  extends t (set_ir (MicroBuilder.emit v (ir t)).2 t).
Proof.
  intros Hv. split; try reflexivity.
  exists [v]. split; [reflexivity | by repeat constructor].
Qed.

Lemma extends_set_reg_values l t :
  length l = length (reg_values t) -> extends t (set_reg_values l t).
Proof.
  intros Hl. split; try reflexivity; try assumption.
  exists []. split; [by rewrite app_nil_r | constructor].
Qed.

Lemma Register_index_lt reg :
  reg <> ArmDecoder.PC -> (ArmDecoder.Register_index reg < 15)%nat.
Proof. destruct reg; simpl; intros; try lia. congruence. Qed.

Lemma Register_index_inj r1 r2 :
  ArmDecoder.Register_index r1 = ArmDecoder.Register_index r2 -> r1 = r2.
Proof. destruct r1, r2; simpl; intros; congruence. Qed.

(** ** [GetReg] and [SetReg] *)

Lemma GetReg_PC t :
  GetReg ArmDecoder.PC t =
  Ok (length (body t),
      set_ir (MicroBuilder.emit (MicroConstU32 (u32 (arm_pc (current t) + 8))) (ir t)).2 t).
Proof. reflexivity. Qed.

Lemma GetReg_cached reg v t :
  reg <> ArmDecoder.PC ->
  reg_values t !! ArmDecoder.Register_index reg = Some (Some v) ->
  GetReg reg t = Ok (v, t).
Proof.
  intros Hreg Hv. unfold GetReg. destruct (decide _) as [|_]; [done|].
  unfold bind, get. by rewrite Hv.
Qed.

Lemma GetReg_first reg t :
  reg <> ArmDecoder.PC ->
  reg_values t !! ArmDecoder.Register_index reg = Some None ->
  GetReg reg t =
  Ok (length (body t),
      set_reg_values (<[ArmDecoder.Register_index reg := Some (length (body t))]> (reg_values t))
        (set_ir (MicroBuilder.emit (MicroGetGPR reg) (ir t)).2 t)).
Proof.
  intros Hreg Hv. unfold GetReg. destruct (decide _) as [|_]; [done|].
  unfold bind, get. by rewrite Hv.
Qed.

Lemma GetReg_out_of_bounds reg t :
  reg <> ArmDecoder.PC ->
  reg_values t !! ArmDecoder.Register_index reg = None ->
  GetReg reg t = Abort OutOfBounds.
Proof.
  intros Hreg Hv. unfold GetReg. destruct (decide _) as [|_]; [done|].
  unfold bind, get. by rewrite Hv.
Qed.

Lemma SetReg_in_bounds reg value t :
  (ArmDecoder.Register_index reg < length (reg_values t))%nat ->
  SetReg reg value t =
  Ok (tt, set_reg_values (<[ArmDecoder.Register_index reg := Some value]> (reg_values t)) t).
Proof.
  intros Hlt. unfold SetReg, bind, get.
  destruct (lookup_lt_is_Some_2 _ _ Hlt) as [o Ho]. by rewrite Ho.
Qed.

Lemma SetReg_out_of_bounds reg value t :
  (length (reg_values t) <= ArmDecoder.Register_index reg)%nat ->
  SetReg reg value t = Abort OutOfBounds.
Proof.
  intros Hge. unfold SetReg, bind, get. by rewrite (lookup_ge_None_2 _ _ Hge).
Qed.

(** On a well-formed cache [GetReg] returns, and only emits and caches. *)
Lemma GetReg_extends reg t :
  cache_wf t -> exists v t', GetReg reg t = Ok (v, t') /\ extends t t'.
Proof.
  intros Hwf. destruct (decide (reg = ArmDecoder.PC)) as [->|Hreg].
  - rewrite GetReg_PC. eexists _, _. split; [reflexivity|].
    apply extends_emit. constructor.
  - pose proof (Register_index_lt _ Hreg) as Hlt.
    destruct (reg_values t !! ArmDecoder.Register_index reg) as [[v|]|] eqn:Hv.
    + rewrite (GetReg_cached _ _ _ Hreg Hv). eexists _, _. split; [reflexivity|].
      apply extends_refl.
    + rewrite (GetReg_first _ _ Hreg Hv). eexists _, _. split; [reflexivity|].
      eapply extends_trans; [apply (extends_emit (MicroGetGPR reg)); by constructor|].
      apply extends_set_reg_values. by rewrite length_insert.
    + apply lookup_ge_None_1 in Hv. unfold cache_wf in Hwf. lia.
Qed.

(** ** The handlers *)

Section Properties.

Variable Read32 : Z -> Z.
Variable DecodeArm : Z -> option ArmDecoder.Instruction.
Variable ArmExpandImm : ArmImm8 -> Z -> Z.

(** The translator after [current.arm_pc += 4]. *)
Definition advance_pc (t : ArmTranslator) : ArmTranslator :=
  set_current (set_arm_pc (u32 (arm_pc (current t) + 4)) (current t)) t.

(** The translator after [ir.SetTerm(term); stop_compilation = true;]. *)
Definition stop_with (term : MicroTerminal) (t : ArmTranslator) : ArmTranslator :=
  set_stop_compilation true (set_ir (MicroBuilder.SetTerm term (ir t)) t).

Lemma FallbackToInterpreter_eq t :
  FallbackToInterpreter t = Ok (tt, stop_with (MicroTerm.Interpret (current t)) t).
Proof. reflexivity. Qed.

Lemma B_eq c imm24 t :
  B c imm24 t =
  Ok (tt, stop_with (MicroTerm.LinkBlock
                       (set_arm_pc (u32 (arm_pc (current t) + imm24)) (current t))) t).
Proof. reflexivity. Qed.

Lemma ConditionPassed_match c t :
  c = cond (current t) -> ConditionPassed c t = Ok (true, t).
Proof.
  intros Hc. unfold ConditionPassed, bind, get. by destruct (decide _).
Qed.

Lemma ConditionPassed_mismatch c t :
  c <> cond (current t) ->
  ConditionPassed c t =
  Ok (false,
      stop_with (MicroTerm.LinkBlock
                   {| arm_pc := arm_pc (current t); TFlag := TFlag (current t);
                      EFlag := EFlag (current t); cond := c |}) t).
Proof.
  intros Hc. unfold ConditionPassed, bind, get. by destruct (decide _).
Qed.

Lemma ADD_imm_mismatch c S n d rotate imm8 t :
  c <> cond (current t) ->
  ADD_imm ArmExpandImm c S n d rotate imm8 t =
  Ok (tt, advance_pc
            (stop_with (MicroTerm.LinkBlock
                          {| arm_pc := arm_pc (current t); TFlag := TFlag (current t);
                             EFlag := EFlag (current t); cond := c |}) t)).
Proof.
  intros Hc. unfold ADD_imm, bind. by rewrite ConditionPassed_mismatch.
Qed.

(** The translator after the builder has appended [v] to the body. *)
Definition emit_node (v : MicroValue) (t : ArmTranslator) : ArmTranslator :=
  set_ir (MicroBuilder.emit v (ir t)).2 t.

Lemma extends_emit_node v t : emitted v -> extends t (emit_node v t).
Proof. apply extends_emit. Qed.

Lemma ALUWritePC_eq new_pc t :
  ALUWritePC new_pc t =
  Ok (tt, stop_with MicroTerm.ReturnToDispatch
            (emit_node (MicroInst MicroOp.AluWritePC [new_pc] MicroArmFlags.None) t)).
Proof. reflexivity. Qed.

(** [ADD_imm] when the condition matches: the state [t1] left by
    [GetReg(n)], the constant and the [Add] node appended to it, and the
    two ways of writing the result. *)
Lemma ADD_imm_match c (S : bool) n d rotate imm8 t :
  cache_wf t -> c = cond (current t) ->
  exists (Rn : ValueRef) (t1 : ArmTranslator),
    GetReg n t = Ok (Rn, t1) /\ extends t t1 /\
    let imm32 := length (body t1) in
    let result := Datatypes.S (length (body t1)) in
    let add := MicroInst MicroOp.Add [Rn; imm32]
                 (if S then MicroArmFlags.NZCV else MicroArmFlags.None) in
    let t3 := emit_node add (emit_node (MicroConstU32 (ArmExpandImm imm8 rotate)) t1) in
    ADD_imm ArmExpandImm c S n d rotate imm8 t =
    if decide (d = ArmDecoder.PC) then
      Ok (tt, advance_pc
                (stop_with MicroTerm.ReturnToDispatch
                   (emit_node (MicroInst MicroOp.AluWritePC [result] MicroArmFlags.None) t3)))
    else
      Ok (tt, advance_pc
                (set_reg_values
                   (<[ArmDecoder.Register_index d := Some result]> (reg_values t3)) t3)).
Proof.
  intros Hwf Hc.
  destruct (GetReg_extends n t Hwf) as (Rn & t1 & HRn & Hext).
  exists Rn, t1. split; [done|]. split; [done|]. intros imm32 result add t3.
  unfold ADD_imm, bind. rewrite (ConditionPassed_match _ _ Hc), HRn.
  unfold ir_emit. simpl.
  assert (length (body t1 ++ [MicroConstU32 (ArmExpandImm imm8 rotate)]) = result) as Hlen
    by (rewrite length_app; simpl; unfold result; lia).
  rewrite Hlen.
  destruct (decide (d = ArmDecoder.PC)) as [->|Hd].
  - destruct S; reflexivity.
  - pose proof (Register_index_lt _ Hd) as Hlt.
    pose proof (ext_cache _ _ Hext) as Hcache. unfold cache_wf in Hwf.
    rewrite SetReg_in_bounds by (destruct S; simpl; lia).
    destruct S; reflexivity.
Qed.

(** ** One instruction *)

(** What one call of [TranslateSingleArmInstruction] may change. *)
Record step_post (t t' : ArmTranslator) : Prop := {
  sp_cache : length (reg_values t') = length (reg_values t);
  sp_pc : stop_compilation t' = false ->
          current t' = set_arm_pc (u32 (arm_pc (current t) + 4)) (current t);
  sp_term : stop_compilation t' = false -> term t' = term t;
  sp_location : location (MicroBuilder.block (ir t')) = location (MicroBuilder.block (ir t));
  sp_count : instructions_translated t' = instructions_translated t;
  sp_body : exists l, body t' = body t ++ l /\ Forall emitted l
}.

Lemma step_post_stop_with tm t : step_post t (stop_with tm t).
Proof.
  split; try reflexivity; try (simpl; discriminate).
  exists []. split; [by rewrite app_nil_r | constructor].
Qed.

Lemma step_post_extends t t1 t' :
  extends t t1 -> step_post t1 t' -> step_post t t'.
Proof.
  intros [] []. split; try congruence.
  - intros Hs. rewrite (sp_pc0 Hs). by rewrite ext_current0.
  - intros Hs. rewrite (sp_term0 Hs). done.
  - destruct ext_body0 as (l1 & E1 & F1), sp_body0 as (l2 & E2 & F2).
    exists (l1 ++ l2). split; [by rewrite E2, E1, app_assoc | by apply Forall_app].
Qed.

Lemma step_post_advance t t1 :
  extends t t1 -> step_post t (advance_pc t1).
Proof.
  intros []. split; simpl; congruence.
Qed.

Lemma step_post_advance_stopped t t1 :
  step_post t t1 -> stop_compilation t1 = true -> step_post t (advance_pc t1).
Proof.
  intros [] Hs. split; simpl; congruence.
Qed.

(** Every handler is [B], [ADD_imm] or a plain fallback. *)
Lemma Visit_cases inst_info :
  (exists c imm24, inst_info = ArmDecoder.B c imm24) \/
  (exists c S n d rotate imm8, inst_info = ArmDecoder.ADD_imm c S n d rotate imm8) \/
  Visit ArmExpandImm inst_info = FallbackToInterpreter.
Proof.
  destruct inst_info;
    first [ by right; right
          | by left; eauto
          | by right; left; eauto 10 ].
Qed.

Lemma ADD_imm_step c (S : bool) n d rotate imm8 t :
  cache_wf t ->
  exists t', ADD_imm ArmExpandImm c S n d rotate imm8 t = Ok (tt, t') /\ step_post t t'.
Proof.
  intros Hwf. destruct (decide (c = cond (current t))) as [Hc|Hc].
  - destruct (ADD_imm_match c S n d rotate imm8 t Hwf Hc) as (Rn & t1 & _ & Hext & Heq).
    simpl in Heq. rewrite Heq. clear Heq.
    set (add := MicroInst MicroOp.Add _ _).
    assert (extends t (emit_node add
                         (emit_node (MicroConstU32 (ArmExpandImm imm8 rotate)) t1))) as Hext3.
    { eapply extends_trans; [exact Hext|].
      eapply extends_trans; [apply extends_emit_node; constructor|].
      apply extends_emit_node. subst add. constructor. }
    destruct (decide (d = ArmDecoder.PC)) as [->|Hd]; eexists; (split; [reflexivity|]).
    + apply step_post_advance_stopped; [|reflexivity].
      eapply step_post_extends; [|apply step_post_stop_with].
      eapply extends_trans; [exact Hext3|].
      apply extends_emit_node. constructor.
    + apply step_post_advance.
      eapply extends_trans; [exact Hext3|].
      apply extends_set_reg_values. by rewrite length_insert.
  - rewrite (ADD_imm_mismatch c S n d rotate imm8 t Hc).
    eexists. split; [reflexivity|].
    apply step_post_advance_stopped; [apply step_post_stop_with | reflexivity].
Qed.

Lemma Visit_step inst_info t :
  cache_wf t ->
  exists t', Visit ArmExpandImm inst_info t = Ok (tt, t') /\ step_post t t'.
Proof.
  intros Hwf.
  destruct (Visit_cases inst_info)
    as [(c & imm24 & ->) | [(c & S & n & d & rotate & imm8 & ->) | ->]].
  - simpl. rewrite B_eq. eexists. split; [reflexivity | apply step_post_stop_with].
  - simpl. by apply ADD_imm_step.
  - rewrite FallbackToInterpreter_eq. eexists. split; [reflexivity | apply step_post_stop_with].
Qed.

Lemma TranslateSingleArmInstruction_no_match t :
  DecodeArm (Read32 (Z.land (arm_pc (current t)) 0xFFFFFFFC)) = None ->
  TranslateSingleArmInstruction Read32 DecodeArm ArmExpandImm t =
  Ok (tt, stop_with (MicroTerm.Interpret (current t)) t).
Proof.
  intros Hd. unfold TranslateSingleArmInstruction, bind, get. by rewrite Hd.
Qed.

Lemma TranslateSingleArmInstruction_match inst_info t :
  DecodeArm (Read32 (Z.land (arm_pc (current t)) 0xFFFFFFFC)) = Some inst_info ->
  TranslateSingleArmInstruction Read32 DecodeArm ArmExpandImm t =
  Visit ArmExpandImm inst_info t.
Proof.
  intros Hd. unfold TranslateSingleArmInstruction, bind, get. by rewrite Hd.
Qed.

Lemma TranslateSingleArmInstruction_step t :
  cache_wf t ->
  exists t', TranslateSingleArmInstruction Read32 DecodeArm ArmExpandImm t = Ok (tt, t')
             /\ step_post t t'.
Proof.
  intros Hwf.
  destruct (DecodeArm (Read32 (Z.land (arm_pc (current t)) 0xFFFFFFFC))) as [i|] eqn:Hd.
  - rewrite (TranslateSingleArmInstruction_match _ _ Hd). by apply Visit_step.
  - rewrite (TranslateSingleArmInstruction_no_match _ Hd).
    eexists. split; [reflexivity | apply step_post_stop_with].
Qed.

(** ** The main loop *)

Lemma land_page_advance pc :
  Z.land pc 0xFFF = 0 -> Z.land (u32 (pc + 4)) 0xFFF = 4.
Proof.
  change 0xFFF with (Z.ones 12). rewrite !Z.land_ones by lia. unfold u32.
  intros Hpc.
  rewrite Z.mod_mod_divide by (exists (2 ^ 20); reflexivity).
  rewrite Z.add_mod, Hpc by lia. reflexivity.
Qed.

(** What a run of the loop may change. *)
Record run_post (t t' : ArmTranslator) : Prop := {
  rp_cache : length (reg_values t') = length (reg_values t);
  rp_term : stop_compilation t' = false -> term t' = term t;
  rp_location : location (MicroBuilder.block (ir t')) = location (MicroBuilder.block (ir t));
  rp_body : exists l, body t' = body t ++ l /\ Forall emitted l
}.

(** The translator after [instructions_translated++]. *)
Definition count_instruction (t : ArmTranslator) : ArmTranslator :=
  set_instructions_translated (u32 (instructions_translated t + 1)) t.

Lemma run_post_step t t' : step_post t t' -> run_post t (count_instruction t').
Proof. intros []. split; simpl; assumption. Qed.

Lemma run_post_step_step t t1 t2 :
  step_post t t1 -> stop_compilation t1 = false -> step_post (count_instruction t1) t2 ->
  run_post t (count_instruction t2).
Proof.
  intros [] Hs []. simpl in *. split; simpl; try congruence.
  - intros Hs2. rewrite (sp_term1 Hs2). auto.
  - destruct sp_body0 as (l1 & E1 & F1), sp_body1 as (l2 & E2 & F2).
    exists (l1 ++ l2). split; [by rewrite E2, E1, app_assoc | by apply Forall_app].
Qed.

Lemma stop_compilation_count t :
  stop_compilation (count_instruction t) = stop_compilation t.
Proof. reflexivity. Qed.

Lemma current_count t : current (count_instruction t) = current t.
Proof. reflexivity. Qed.

Lemma Translate_loop_unfold fuel t :
  Translate_loop Read32 DecodeArm ArmExpandImm (S fuel) t =
  match TranslateSingleArmInstruction Read32 DecodeArm ArmExpandImm t with
  | Abort f => Some (Abort f)
  | Ok (_, t1) =>
      if stop_compilation (count_instruction t1) then Some (Ok (count_instruction t1))
      else if negb (Z.land (arm_pc (current (count_instruction t1))) 0xFFF =? 0)
           then Some (Ok (count_instruction t1))
           else Translate_loop Read32 DecodeArm ArmExpandImm fuel (count_instruction t1)
  end.
Proof. reflexivity. Qed.

(** More fuel does not change a result. *)
Lemma Translate_loop_fuel_mono fuel k t r :
  Translate_loop Read32 DecodeArm ArmExpandImm fuel t = Some r ->
  Translate_loop Read32 DecodeArm ArmExpandImm (fuel + k) t = Some r.
Proof.
  revert t. induction fuel as [|fuel IH]; intros t; [discriminate|].
  change (S fuel + k)%nat with (S (fuel + k)). rewrite !Translate_loop_unfold.
  destruct (TranslateSingleArmInstruction _ _ _ t) as [[[] t1]|f]; [|done].
  destruct (stop_compilation _); [done|].
  destruct (negb _); [done|]. apply IH.
Qed.

(** The loop leaves after its first or its second iteration: it goes round
    again only when the program counter has reached the start of a page,
    and the next instruction moves it off that address or stops the block. *)
Lemma Translate_loop_two t :
  cache_wf t ->
  exists t',
    (forall k, Translate_loop Read32 DecodeArm ArmExpandImm (2 + k) t = Some (Ok t')) /\
    run_post t t'.
Proof.
  intros Hwf.
  destruct (TranslateSingleArmInstruction_step t Hwf) as (t1 & Ht1 & Hp1).
  destruct (stop_compilation t1) eqn:Hs1.
  { exists (count_instruction t1). split; [|by apply run_post_step].
    intros k. change (2 + k)%nat with (S (S k)).
    by rewrite Translate_loop_unfold, Ht1, stop_compilation_count, Hs1. }
  destruct (negb (Z.land (arm_pc (current t1)) 0xFFF =? 0)) eqn:Hpage.
  { exists (count_instruction t1). split; [|by apply run_post_step].
    intros k. change (2 + k)%nat with (S (S k)).
    by rewrite Translate_loop_unfold, Ht1, stop_compilation_count, Hs1, current_count, Hpage. }
  assert (cache_wf (count_instruction t1)) as Hwf1.
  { unfold cache_wf in *. simpl. by rewrite (sp_cache _ _ Hp1). }
  destruct (TranslateSingleArmInstruction_step _ Hwf1) as (t2 & Ht2 & Hp2).
  exists (count_instruction t2). split; [|by eapply run_post_step_step].
  intros k. change (2 + k)%nat with (S (S k)).
  rewrite Translate_loop_unfold, Ht1, stop_compilation_count, Hs1, current_count, Hpage.
  rewrite Translate_loop_unfold, Ht2, stop_compilation_count, current_count.
  destruct (stop_compilation t2) eqn:Hs2; [done|].
  rewrite (sp_pc _ _ Hp2 Hs2), current_count. simpl arm_pc.
  apply negb_false_iff, Z.eqb_eq in Hpage.
  by rewrite (land_page_advance _ Hpage).
Qed.

Lemma Translate_loop_result fuel t r :
  cache_wf t ->
  Translate_loop Read32 DecodeArm ArmExpandImm fuel t = Some r ->
  exists t', r = Ok t' /\ run_post t t' /\
             forall k, Translate_loop Read32 DecodeArm ArmExpandImm (2 + k) t = Some (Ok t').
Proof.
  intros Hwf Hr. destruct (Translate_loop_two t Hwf) as (t' & Hrun & Hpost).
  exists t'. split; [|done].
  apply (Translate_loop_fuel_mono _ 2) in Hr.
  rewrite Nat.add_comm, Hrun in Hr. congruence.
Qed.

Lemma Translate_writeback_id t : Translate_writeback t = t.
Proof.
  unfold Translate_writeback. generalize (seq 0 (length (reg_values t))).
  intros l. revert t. induction l as [|i l IH]; intros t; [reflexivity | apply IH].
Qed.

Lemma cache_wf_new loc : cache_wf (ArmTranslator_new loc).
Proof. reflexivity. Qed.

Lemma Translate_state_new fuel loc :
  Translate_state Read32 DecodeArm ArmExpandImm fuel (ArmTranslator_new loc) =
  match Translate_loop Read32 DecodeArm ArmExpandImm fuel (ArmTranslator_new loc) with
  | None => None
  | Some (Abort f) => Some (Abort f)
  | Some (Ok t) => Some (Ok (set_stop_compilation true t))
  end.
Proof.
  unfold Translate_state. simpl.
  change (set_ir _ (ArmTranslator_new loc)) with (ArmTranslator_new loc).
  destruct (Translate_loop _ _ _ fuel _) as [[t|f]|]; try reflexivity.
  by rewrite Translate_writeback_id.
Qed.

Lemma Translate_eq fuel loc :
  Translate Read32 DecodeArm ArmExpandImm fuel loc =
  match Translate_loop Read32 DecodeArm ArmExpandImm fuel (ArmTranslator_new loc) with
  | None => None
  | Some (Abort f) => Some (Abort f)
  | Some (Ok t) => Some (Ok (MicroBuilder.block (ir t)))
  end.
Proof.
  unfold Translate. rewrite Translate_state_new.
  by destruct (Translate_loop _ _ _ fuel _) as [[t|f]|].
Qed.

Lemma Translate_loop_new loc :
  exists t,
    (forall k, Translate_loop Read32 DecodeArm ArmExpandImm (2 + k) (ArmTranslator_new loc)
               = Some (Ok t)) /\
    run_post (ArmTranslator_new loc) t.
Proof. apply Translate_loop_two, cache_wf_new. Qed.

(** The loop is left with the stop flag set or on its page test. *)
Lemma Translate_loop_exit fuel t t' :
  Translate_loop Read32 DecodeArm ArmExpandImm fuel t = Some (Ok t') ->
  stop_compilation t' = true \/ Z.land (arm_pc (current t')) 0xFFF <> 0.
Proof.
  revert t. induction fuel as [|fuel IH]; intros t; [discriminate|].
  rewrite Translate_loop_unfold.
  destruct (TranslateSingleArmInstruction _ _ _ t) as [[[] t1]|f]; [|discriminate].
  destruct (stop_compilation (count_instruction t1)) eqn:Hs.
  { intros [= <-]. by left. }
  destruct (negb _) eqn:Hpage; [|apply IH].
  intros [= <-]. right. apply negb_true_iff, Z.eqb_neq in Hpage. exact Hpage.
Qed.

(** Whatever fuel suffices, the result is the one of two iterations. *)
Lemma Translate_fuel_irrelevant fuel loc r :
  Translate Read32 DecodeArm ArmExpandImm fuel loc = Some r ->
  Translate Read32 DecodeArm ArmExpandImm 2 loc = Some r.
Proof.
  rewrite !Translate_eq.
  destruct (Translate_loop _ _ _ fuel _) as [r'|] eqn:Hr; [|discriminate].
  destruct (Translate_loop_result _ _ _ (cache_wf_new loc) Hr) as (t' & -> & _ & Hrun).
  intros [= <-]. specialize (Hrun 0%nat). change (2 + 0)%nat with 2%nat in Hrun.
  by rewrite Hrun.
Qed.

(** No [SetGPR] node is ever emitted. *)
Lemma Translate_emits_no_SetGPR loc :
  exists blk,
    (forall k, Translate Read32 DecodeArm ArmExpandImm (2 + k) loc = Some (Ok blk)) /\
    Forall (fun v => GetOp v <> MicroOp.SetGPR) (instructions blk).
Proof.
  destruct (Translate_loop_new loc) as (t & Hrun & Hpost).
  exists (MicroBuilder.block (ir t)). split.
  - intros k. by rewrite Translate_eq, Hrun.
  - destruct (rp_body _ _ Hpost) as (l & -> & Hl). simpl.
    eapply Forall_impl; [exact Hl|]. by destruct 1.
Qed.

(** ** Translation always returns a block *)

(** C4. [Translate(location)] never fails.  For every location the loop
    ends within two iterations and a block is returned: no run aborts, and
    every amount of fuel that suffices gives the same block.  When the
    decoder has no match for the word fetched at the current location --
    at any iteration of the loop -- the terminal becomes [Interpret] of
    that location, no node is emitted and the loop stops there.  When this
    happens at the very first instruction, the block returned has an empty
    body and the terminal [Interpret] of the entry location. *)
Theorem Translate_never_fails (loc : LocationDescriptor) :
  (exists blk,
     location blk = loc /\
     forall k, Translate Read32 DecodeArm ArmExpandImm (2 + k) loc = Some (Ok blk)) /\
  (forall fuel r,
     Translate Read32 DecodeArm ArmExpandImm fuel loc = Some r -> exists blk, r = Ok blk) /\
  (forall fuel t,
     DecodeArm (Read32 (Z.land (arm_pc (current t)) 0xFFFFFFFC)) = None ->
     let t' := stop_with (MicroTerm.Interpret (current t)) t in
     TranslateSingleArmInstruction Read32 DecodeArm ArmExpandImm t = Ok (tt, t') /\
     term t' = MicroTerm.Interpret (current t) /\
     body t' = body t /\
     stop_compilation t' = true /\
     Translate_loop Read32 DecodeArm ArmExpandImm (S fuel) t
       = Some (Ok (count_instruction t'))) /\
  (DecodeArm (Read32 (Z.land (arm_pc loc) 0xFFFFFFFC)) = None ->
   forall fuel,
     Translate Read32 DecodeArm ArmExpandImm (S fuel) loc
     = Some (Ok {| location := loc; instructions := [];
                   terminal := MicroTerm.Interpret loc |})).
Proof.
  destruct (Translate_loop_new loc) as (t & Hrun & Hpost).
  split; [|split; [|split]].
  - exists (MicroBuilder.block (ir t)). split; [apply (rp_location _ _ Hpost)|].
    intros k. by rewrite Translate_eq, Hrun.
  - intros fuel r. rewrite Translate_eq.
    destruct (Translate_loop _ _ _ fuel _) as [r'|] eqn:Hr; [|discriminate].
    destruct (Translate_loop_result _ _ _ (cache_wf_new loc) Hr) as (t' & -> & _).
    intros [= <-]. eauto.
  - intros fuel t0 Hd t'.
    pose proof (TranslateSingleArmInstruction_no_match t0 Hd) as Hstep.
    split; [exact Hstep|]. split; [reflexivity|]. split; [reflexivity|].
    split; [reflexivity|]. by rewrite Translate_loop_unfold, Hstep.
  - intros Hd fuel. rewrite Translate_eq, Translate_loop_unfold.
    by rewrite (TranslateSingleArmInstruction_no_match (ArmTranslator_new loc) Hd).
Qed.

(** ** The terminal of a block that no handler terminated *)

(** C9. If the main loop is left with the stop flag clear -- no handler,
    condition test or fallback stopped the block, so the loop ended on its
    test of [current.arm_pc & 0xFFF] -- the block returned still carries a
    terminal: the one it was constructed with, which is the first
    alternative of the terminal variant, [ReturnToDispatch]. *)
Theorem Translate_default_terminal (fuel : nat) (loc : LocationDescriptor) (t : ArmTranslator) :
  Translate_loop Read32 DecodeArm ArmExpandImm fuel (ArmTranslator_new loc) = Some (Ok t) ->
  stop_compilation t = false ->
  Z.land (arm_pc (current t)) 0xFFF <> 0 /\
  Translate Read32 DecodeArm ArmExpandImm fuel loc = Some (Ok (MicroBuilder.block (ir t))) /\
  terminal (MicroBuilder.block (ir t)) = MicroTerm.default /\
  MicroTerm.default = MicroTerm.ReturnToDispatch.
Proof.
  intros Hloop Hstop. repeat split.
  - destruct (Translate_loop_exit _ _ _ Hloop) as [Hs|Hp]; [congruence | exact Hp].
  - by rewrite Translate_eq, Hloop.
  - destruct (Translate_loop_result _ _ _ (cache_wf_new loc) Hloop) as (t' & [= <-] & Hpost & _).
    apply (rp_term _ _ Hpost Hstop).
Qed.

(** ** The page test of the main loop *)

(** The states in which the loop of [Translate(location)] starts an
    iteration: the new translator, and every state from which the code goes
    round again. *)
Inductive loop_head (loc : LocationDescriptor) : ArmTranslator -> Prop :=
| loop_head_entry : loop_head loc (ArmTranslator_new loc)
| loop_head_next t t1 :
    loop_head loc t ->
    TranslateSingleArmInstruction Read32 DecodeArm ArmExpandImm t = Ok (tt, t1) ->
    stop_compilation t1 = false ->
    negb (Z.land (arm_pc (current t1)) 0xFFF =? 0) = false ->
    loop_head loc (count_instruction t1).

Lemma loop_head_invariant loc t :
  loop_head loc t ->
  cache_wf t /\ stop_compilation t = false /\ term t = MicroTerm.ReturnToDispatch /\
  location (MicroBuilder.block (ir t)) = loc /\ Forall emitted (body t).
Proof.
  induction 1 as [|t t1 Hhead (Hwf & Hs & Hterm & Hloc & Hbody) Hstep Hs1 Hpage].
  - repeat split. constructor.
  - destruct (TranslateSingleArmInstruction_step t Hwf) as (t1' & Ht1 & Hp).
    assert (t1' = t1) as -> by congruence.
    destruct Hp. repeat split; simpl.
    + unfold cache_wf in *. simpl. congruence.
    + exact Hs1.
    + rewrite (sp_term0 Hs1). exact Hterm.
    + congruence.
    + destruct sp_body0 as (l & -> & Hl). by apply Forall_app.
Qed.

(** ** The condition test *)

(** C3, as the code has it.  [ADD_imm] is the handler that calls
    [ConditionPassed].  When the instruction decoded at the current location
    is an [ADD_imm] whose condition differs from the block's, no node is
    emitted and the register cache is untouched, the terminal becomes
    [LinkBlock] of the current location with the instruction's condition,
    and the block stops.  A handler other than [B] and [ADD_imm] does not
    look at the condition: it ends the block with [Interpret] of the current
    location. *)
Theorem condition_mismatch_links_block (t : ArmTranslator) (fuel : nat) :
  (forall c S_ n d rotate imm8,
     DecodeArm (Read32 (Z.land (arm_pc (current t)) 0xFFFFFFFC))
       = Some (ArmDecoder.ADD_imm c S_ n d rotate imm8) ->
     c <> cond (current t) ->
     exists t',
       TranslateSingleArmInstruction Read32 DecodeArm ArmExpandImm t = Ok (tt, t') /\
       body t' = body t /\
       reg_values t' = reg_values t /\
       term t' = MicroTerm.LinkBlock
                   {| arm_pc := arm_pc (current t); TFlag := TFlag (current t);
                      EFlag := EFlag (current t); cond := c |} /\
       stop_compilation t' = true /\
       Translate_loop Read32 DecodeArm ArmExpandImm (S fuel) t
         = Some (Ok (count_instruction t'))) /\
  (forall inst_info,
     DecodeArm (Read32 (Z.land (arm_pc (current t)) 0xFFFFFFFC)) = Some inst_info ->
     (forall c imm24, inst_info <> ArmDecoder.B c imm24) ->
     (forall c S_ n d rotate imm8, inst_info <> ArmDecoder.ADD_imm c S_ n d rotate imm8) ->
     let t' := stop_with (MicroTerm.Interpret (current t)) t in
     TranslateSingleArmInstruction Read32 DecodeArm ArmExpandImm t = Ok (tt, t') /\
     Translate_loop Read32 DecodeArm ArmExpandImm (S fuel) t
       = Some (Ok (count_instruction t'))).
Proof.
  split.
  - intros c S_ n d rotate imm8 Hd Hc.
    pose proof (TranslateSingleArmInstruction_match _ _ Hd) as Hstep.
    simpl in Hstep. rewrite (ADD_imm_mismatch c S_ n d rotate imm8 t Hc) in Hstep.
    eexists. split; [exact Hstep|]. repeat split.
    by rewrite Translate_loop_unfold, Hstep.
  - intros inst_info Hd HB HADD t'.
    pose proof (TranslateSingleArmInstruction_match _ _ Hd) as Hstep.
    destruct (Visit_cases inst_info)
      as [(c & imm24 & ->) | [(c & S_ & n & d & rotate & imm8 & ->) | Hv]].
    + by destruct (HB c imm24).
    + by destruct (HADD c S_ n d rotate imm8).
    + rewrite Hv, FallbackToInterpreter_eq in Hstep. split; [exact Hstep|].
      by rewrite Translate_loop_unfold, Hstep.
Qed.

(** ** The register cache *)

Lemma emitted_not_GetGPR_PC v : emitted v -> v <> MicroGetGPR ArmDecoder.PC.
Proof. destruct 1; congruence. Qed.

Lemma Translate_state_total loc :
  exists t,
    (forall k, Translate_state Read32 DecodeArm ArmExpandImm (2 + k) (ArmTranslator_new loc)
               = Some (Ok t)) /\
    cache_wf t /\ Forall emitted (body t).
Proof.
  destruct (Translate_loop_new loc) as (t & Hrun & Hpost).
  exists (set_stop_compilation true t). split; [|split].
  - intros k. by rewrite Translate_state_new, Hrun.
  - unfold cache_wf. simpl. by rewrite (rp_cache _ _ Hpost).
  - simpl. destruct (rp_body _ _ Hpost) as (l & -> & Hl). exact Hl.
Qed.

(** C6.  The program counter is never cached.  A read of register 15
    through [GetReg] always succeeds; it appends one new [ConstU32] node to
    the body, whose value is [current.arm_pc + 8] in 32-bit arithmetic, and
    returns the handle of that node, which no earlier node has; it leaves
    the cache as it was.  At every iteration of the main loop and when
    [Translate] returns, the cache has its fifteen slots, none of them at
    the index of the program counter, and no [GetGPR] node for the program
    counter is in the body. *)
Theorem PC_is_never_cached :
  (forall t,
     exists t',
       GetReg ArmDecoder.PC t = Ok (length (body t), t') /\
       body t' = body t ++ [MicroConstU32 (u32 (arm_pc (current t) + 8))] /\
       body t !! length (body t) = None /\
       reg_values t' = reg_values t) /\
  (forall loc,
     exists t,
       (forall k, Translate_state Read32 DecodeArm ArmExpandImm (2 + k) (ArmTranslator_new loc)
                  = Some (Ok t)) /\
       length (reg_values t) = 15%nat /\
       reg_values t !! ArmDecoder.Register_index ArmDecoder.PC = None /\
       Forall (fun v => v <> MicroGetGPR ArmDecoder.PC) (body t)) /\
  (forall loc t,
     loop_head loc t ->
     length (reg_values t) = 15%nat /\
     reg_values t !! ArmDecoder.Register_index ArmDecoder.PC = None /\
     Forall (fun v => v <> MicroGetGPR ArmDecoder.PC) (body t)).
Proof.
  split; [|split].
  - intros t. rewrite GetReg_PC. eexists. split; [reflexivity|].
    split; [reflexivity|]. split; [|reflexivity].
    by apply lookup_ge_None_2.
  - intros loc. destruct (Translate_state_total loc) as (t & Hrun & Hwf & Hbody).
    exists t. split; [exact Hrun|]. split; [exact Hwf|]. split.
    + apply lookup_ge_None_2. unfold cache_wf in Hwf. rewrite Hwf. simpl. lia.
    + eapply Forall_impl; [exact Hbody | apply emitted_not_GetGPR_PC].
  - intros loc t Hhead.
    destruct (loop_head_invariant _ _ Hhead) as (Hwf & _ & _ & _ & Hbody).
    split; [exact Hwf|]. split.
    + apply lookup_ge_None_2. unfold cache_wf in Hwf. rewrite Hwf. simpl. lia.
    + eapply Forall_impl; [exact Hbody | apply emitted_not_GetGPR_PC].
Qed.

(** [GetReg] and [SetReg] on one register leave the slots of the others. *)
Lemma GetReg_other_slot reg reg' v t t' :
  reg' <> reg -> GetReg reg' t = Ok (v, t') ->
  reg_values t' !! ArmDecoder.Register_index reg
  = reg_values t !! ArmDecoder.Register_index reg.
Proof.
  intros Hne. destruct (decide (reg' = ArmDecoder.PC)) as [->|Hreg'].
  - rewrite GetReg_PC. by intros [= _ <-].
  - destruct (reg_values t !! ArmDecoder.Register_index reg') as [[w|]|] eqn:Hw.
    + rewrite (GetReg_cached _ _ _ Hreg' Hw). by intros [= _ <-].
    + rewrite (GetReg_first _ _ Hreg' Hw). intros [= _ <-]. simpl.
      apply list_lookup_insert_ne. intros Heq. by apply Register_index_inj in Heq.
    + by rewrite (GetReg_out_of_bounds _ _ Hreg' Hw).
Qed.

Lemma SetReg_other_slot reg reg' w t t' :
  reg' <> reg -> SetReg reg' w t = Ok (tt, t') ->
  reg_values t' !! ArmDecoder.Register_index reg
  = reg_values t !! ArmDecoder.Register_index reg.
Proof.
  intros Hne.
  destruct (decide (ArmDecoder.Register_index reg' < length (reg_values t))%nat) as [Hlt|Hge].
  - rewrite SetReg_in_bounds by done. intros [= <-]. simpl.
    apply list_lookup_insert_ne. intros Heq. by apply Register_index_inj in Heq.
  - rewrite SetReg_out_of_bounds by lia. discriminate.
Qed.

(** C7.  For a register [reg] other than the program counter, [GetReg(reg)]
    returns a node [v] and leaves [v] in the slot of [reg].  If the slot was
    empty this first call has appended exactly one node, [GetGPR(reg)], and
    [v] is its handle.  As long as the slot holds [v] -- reads and writes of
    other registers do not change it -- every further [GetReg(reg)] returns
    the same [v] and changes nothing.  After [SetReg(reg, w)], which emits
    nothing, [GetReg(reg)] returns [w]. *)
Theorem GetReg_returns_cached_node (reg : ArmReg) (t : ArmTranslator) :
  reg <> ArmDecoder.PC ->
  cache_wf t ->
  exists v t1,
    GetReg reg t = Ok (v, t1) /\
    reg_values t1 !! ArmDecoder.Register_index reg = Some (Some v) /\
    (reg_values t !! ArmDecoder.Register_index reg = Some None ->
     v = length (body t) /\ body t1 = body t ++ [MicroGetGPR reg]) /\
    (forall w, reg_values t !! ArmDecoder.Register_index reg = Some (Some w) ->
               v = w /\ t1 = t) /\
    GetReg reg t1 = Ok (v, t1) /\
    (forall t2, reg_values t2 !! ArmDecoder.Register_index reg = Some (Some v) ->
                GetReg reg t2 = Ok (v, t2)) /\
    (forall reg' v' t2 t3,
       reg' <> reg -> GetReg reg' t2 = Ok (v', t3) ->
       reg_values t3 !! ArmDecoder.Register_index reg
       = reg_values t2 !! ArmDecoder.Register_index reg) /\
    (forall reg' w t2 t3,
       reg' <> reg -> SetReg reg' w t2 = Ok (tt, t3) ->
       reg_values t3 !! ArmDecoder.Register_index reg
       = reg_values t2 !! ArmDecoder.Register_index reg) /\
    (forall w, exists t2,
       SetReg reg w t1 = Ok (tt, t2) /\ body t2 = body t1 /\
       GetReg reg t2 = Ok (w, t2)).
Proof.
  intros Hreg Hwf. pose proof (Register_index_lt _ Hreg) as Hlt.
  unfold cache_wf in Hwf.
  assert (exists v t1, GetReg reg t = Ok (v, t1) /\
            reg_values t1 !! ArmDecoder.Register_index reg = Some (Some v) /\
            length (reg_values t1) = 15%nat /\
            (reg_values t !! ArmDecoder.Register_index reg = Some None ->
             v = length (body t) /\ body t1 = body t ++ [MicroGetGPR reg]) /\
            (forall w, reg_values t !! ArmDecoder.Register_index reg = Some (Some w) ->
                       v = w /\ t1 = t)) as (v & t1 & Hget & Hslot & Hlen & Hfirst & Hcached).
  { destruct (reg_values t !! ArmDecoder.Register_index reg) as [[w|]|] eqn:Hw.
    - exists w, t. rewrite (GetReg_cached _ _ _ Hreg Hw).
      split; [reflexivity|]. split; [exact Hw|]. split; [exact Hwf|].
      split; [discriminate|]. by intros w' [= ->].
    - eexists _, _. rewrite (GetReg_first _ _ Hreg Hw). split; [reflexivity|].
      simpl. split; [apply list_lookup_insert_eq; lia|].
      split; [by rewrite length_insert|]. by split.
    - apply lookup_ge_None_1 in Hw. lia. }
  exists v, t1. split; [exact Hget|]. split; [exact Hslot|].
  split; [exact Hfirst|]. split; [exact Hcached|].
  split; [by apply GetReg_cached|]. split; [by intros; apply GetReg_cached|].
  split; [by intros; eapply GetReg_other_slot|].
  split; [by intros; eapply SetReg_other_slot|].
  intros w. rewrite SetReg_in_bounds by lia. eexists. split; [reflexivity|].
  split; [reflexivity|]. apply GetReg_cached; [exact Hreg|].
  simpl. apply list_lookup_insert_eq. lia.
Qed.

(** ** Write-flags *)

(** The write-flags of [v] are among the default write-flags of its opcode. *)
Definition write_flags_narrowed (v : MicroValue) : bool :=
  MicroArmFlags.subset (WriteFlags v) (default_write_flags (GetMicroOpInfo (GetOp v))).

Lemma emitted_write_flags_narrowed v : emitted v -> write_flags_narrowed v = true.
Proof. destruct 1 as [| | ? ? []|]; reflexivity. Qed.

(** C8.  Every node of a block returned by [Translate] -- every [MicroInst]
    in particular -- has write-flags that are a subset of the default
    write-flags of its opcode.  When its condition matches, [ADD_imm]
    appends, after the read of [n] and a constant, an [Add] node whose
    write-flags are [NZCV] if [S] is set and [None] if it is clear; both are
    subsets of [NZCV], the default write-flags of [Add]. *)
Theorem write_flags_within_defaults :
  (forall loc,
     exists blk,
       (forall k, Translate Read32 DecodeArm ArmExpandImm (2 + k) loc = Some (Ok blk)) /\
       Forall (fun v => write_flags_narrowed v = true) (instructions blk)) /\
  (forall t c (S : bool) n d rotate imm8,
     cache_wf t -> c = cond (current t) ->
     exists Rn t1 t',
       GetReg n t = Ok (Rn, t1) /\
       ADD_imm ArmExpandImm c S n d rotate imm8 t = Ok (tt, t') /\
       body t' !! Datatypes.S (length (body t1))
       = Some (MicroInst MicroOp.Add [Rn; length (body t1)]
                 (if S then MicroArmFlags.NZCV else MicroArmFlags.None))) /\
  default_write_flags (GetMicroOpInfo MicroOp.Add) = MicroArmFlags.NZCV /\
  MicroArmFlags.subset MicroArmFlags.NZCV (default_write_flags (GetMicroOpInfo MicroOp.Add))
  = true /\
  MicroArmFlags.subset MicroArmFlags.None (default_write_flags (GetMicroOpInfo MicroOp.Add))
  = true.
Proof.
  split; [|split; [|by repeat split]].
  - intros loc. destruct (Translate_loop_new loc) as (t & Hrun & Hpost).
    exists (MicroBuilder.block (ir t)). split.
    + intros k. by rewrite Translate_eq, Hrun.
    + destruct (rp_body _ _ Hpost) as (l & -> & Hl). simpl.
      eapply Forall_impl; [exact Hl | apply emitted_write_flags_narrowed].
  - intros t c S n d rotate imm8 Hwf Hc.
    destruct (ADD_imm_match c S n d rotate imm8 t Hwf Hc) as (Rn & t1 & HRn & _ & Heq).
    simpl in Heq. exists Rn, t1.
    destruct (decide (d = ArmDecoder.PC)); eexists; (split; [exact HRn|]);
      (split; [exact Heq|]); simpl.
    + rewrite <- !app_assoc. rewrite lookup_app_r by lia.
      by replace (Datatypes.S (length (body t1)) - length (body t1))%nat with 1%nat by lia.
    + rewrite <- !app_assoc. rewrite lookup_app_r by lia.
      by replace (Datatypes.S (length (body t1)) - length (body t1))%nat with 1%nat by lia.
Qed.

(** ** Bounds of the register cache *)

(** C10.  The cache is an array of fifteen slots indexed by the register
    number.  On such a cache [SetReg(reg, v)] stays within the array exactly
    when the index of [reg] is below fifteen, that is when [reg] is not the
    program counter; [SetReg(PC, v)] indexes past the end.  [ADD_imm] tests
    its destination first: with destination [PC] and a matching condition
    it hands the result to [ALUWritePC], which emits [AluWritePC] and stops
    the block, and the cache keeps its size; whatever its operands,
    [ADD_imm] never indexes past the end. *)
Theorem SetReg_within_bounds (t : ArmTranslator) :
  cache_wf t ->
  (forall reg v,
     (exists t', SetReg reg v t = Ok (tt, t')) <-> (ArmDecoder.Register_index reg < 15)%nat) /\
  (forall reg, (ArmDecoder.Register_index reg < 15)%nat <-> reg <> ArmDecoder.PC) /\
  (forall reg v,
     reg <> ArmDecoder.PC ->
     SetReg reg v t
     = Ok (tt, set_reg_values (<[ArmDecoder.Register_index reg := Some v]> (reg_values t)) t)) /\
  (forall v, SetReg ArmDecoder.PC v t = Abort OutOfBounds) /\
  (forall c (S : bool) n rotate imm8,
     c = cond (current t) ->
     exists result t3,
       ADD_imm ArmExpandImm c S n ArmDecoder.PC rotate imm8 t
       = Ok (tt, advance_pc
                   (stop_with MicroTerm.ReturnToDispatch
                      (emit_node (MicroInst MicroOp.AluWritePC [result] MicroArmFlags.None)
                         t3))) /\
       length (reg_values t3) = 15%nat) /\
  (forall c (S : bool) n d rotate imm8,
     exists t', ADD_imm ArmExpandImm c S n d rotate imm8 t = Ok (tt, t') /\
                length (reg_values t') = 15%nat).
Proof.
  intros Hwf. pose proof Hwf as Hlen. unfold cache_wf in Hlen.
  assert (forall reg, (ArmDecoder.Register_index reg < 15)%nat <-> reg <> ArmDecoder.PC)
    as Hindex.
  { intros reg. split; [|apply Register_index_lt].
    intros Hlt ->. simpl in Hlt. lia. }
  split; [|split; [exact Hindex|split; [|split; [|split]]]].
  - intros reg v. split.
    + intros [t' Hset].
      destruct (decide (ArmDecoder.Register_index reg < 15)%nat) as [|Hge]; [done|].
      rewrite SetReg_out_of_bounds in Hset by lia. discriminate.
    + intros Hlt. rewrite SetReg_in_bounds by lia. eauto.
  - intros reg v Hreg. apply SetReg_in_bounds. apply Hindex in Hreg. lia.
  - intros v. apply SetReg_out_of_bounds. rewrite Hlen. simpl. lia.
  - intros c S n rotate imm8 Hc.
    destruct (ADD_imm_match c S n ArmDecoder.PC rotate imm8 t Hwf Hc)
      as (Rn & t1 & _ & Hext & Heq).
    simpl in Heq. destruct (decide (ArmDecoder.PC = ArmDecoder.PC)) as [_|]; [|done].
    eexists _, _. split; [exact Heq|]. simpl. by rewrite (ext_cache _ _ Hext).
  - intros c S n d rotate imm8.
    destruct (ADD_imm_step c S n d rotate imm8 t Hwf) as (t' & Heq & Hp).
    exists t'. split; [exact Heq|]. by rewrite (sp_cache _ _ Hp).
Qed.

End Properties.

(** * Further properties of the translator *)

Section Shapes.

Variable Read32 : Z -> Z.
Variable DecodeArm : Z -> option ArmDecoder.Instruction.
Variable ArmExpandImm : ArmImm8 -> Z -> Z.

(** ** The outcomes of [GetReg], of a handler and of the loop *)

(** The three ways in which [GetReg(reg)] returns. *)
Inductive GetReg_result (reg : ArmReg) (t : ArmTranslator)
  : ValueRef -> ArmTranslator -> Prop :=
| GetReg_result_PC :
    reg = ArmDecoder.PC ->
    GetReg_result reg t (length (body t))
      (emit_node (MicroConstU32 (u32 (arm_pc (current t) + 8))) t)
| GetReg_result_cached v :
    reg <> ArmDecoder.PC ->
    reg_values t !! ArmDecoder.Register_index reg = Some (Some v) ->
    GetReg_result reg t v t
| GetReg_result_first :
    reg <> ArmDecoder.PC ->
    reg_values t !! ArmDecoder.Register_index reg = Some None ->
    GetReg_result reg t (length (body t))
      (set_reg_values
         (<[ArmDecoder.Register_index reg := Some (length (body t))]> (reg_values t))
         (emit_node (MicroGetGPR reg) t)).

Lemma GetReg_cases reg t :
  cache_wf t ->
  exists v t1, GetReg reg t = Ok (v, t1) /\ GetReg_result reg t v t1.
Proof.
  intros Hwf. destruct (decide (reg = ArmDecoder.PC)) as [->|Hreg].
  - eexists _, _. split; [apply GetReg_PC | by constructor].
  - pose proof (Register_index_lt _ Hreg) as Hlt.
    destruct (reg_values t !! ArmDecoder.Register_index reg) as [[v|]|] eqn:Hv.
    + exists v, t. split; [by apply GetReg_cached | by constructor].
    + eexists _, _. split; [by apply GetReg_first | by constructor].
    + apply lookup_ge_None_1 in Hv. unfold cache_wf in Hwf. lia.
Qed.

(** The [Add] node of [ADD_imm] and the state in which it has been emitted,
    [t1] being the state and [Rn] the handle returned by [GetReg(n)]. *)
Definition ADD_imm_node (S : bool) (Rn : ValueRef) (t1 : ArmTranslator) : MicroValue :=
  MicroInst MicroOp.Add [Rn; length (body t1)]
    (if S then MicroArmFlags.NZCV else MicroArmFlags.None).

Definition ADD_imm_emitted (S : bool) (rotate : Z) (imm8 : ArmImm8) (Rn : ValueRef)
    (t1 : ArmTranslator) : ArmTranslator :=
  emit_node (ADD_imm_node S Rn t1)
    (emit_node (MicroConstU32 (ArmExpandImm imm8 rotate)) t1).

(** The five ways in which a handler returns: a fallback, [B], [ADD_imm]
    under another condition, [ADD_imm] to the program counter, [ADD_imm] to
    another register. *)
Inductive step_result (t : ArmTranslator) : ArmTranslator -> Prop :=
| step_fallback :
    step_result t (stop_with (MicroTerm.Interpret (current t)) t)
| step_B (imm24 : ArmImm24) :
    step_result t
      (stop_with (MicroTerm.LinkBlock
                    (set_arm_pc (u32 (arm_pc (current t) + imm24)) (current t))) t)
| step_ADD_imm_mismatch (c : Cond) :
    c <> cond (current t) ->
    step_result t
      (advance_pc
         (stop_with (MicroTerm.LinkBlock
                       {| arm_pc := arm_pc (current t); TFlag := TFlag (current t);
                          EFlag := EFlag (current t); cond := c |}) t))
| step_ADD_imm_PC (S : bool) (n : ArmReg) (rotate : Z) (imm8 : ArmImm8) Rn t1 :
    GetReg_result n t Rn t1 ->
    step_result t
      (advance_pc
         (stop_with MicroTerm.ReturnToDispatch
            (emit_node (MicroInst MicroOp.AluWritePC [Datatypes.S (length (body t1))]
                          MicroArmFlags.None)
               (ADD_imm_emitted S rotate imm8 Rn t1))))
| step_ADD_imm (S : bool) (n d : ArmReg) (rotate : Z) (imm8 : ArmImm8) Rn t1 :
    d <> ArmDecoder.PC ->
    GetReg_result n t Rn t1 ->
    step_result t
      (advance_pc
         (set_reg_values
            (<[ArmDecoder.Register_index d := Some (Datatypes.S (length (body t1)))]>
               (reg_values t1))
            (ADD_imm_emitted S rotate imm8 Rn t1))).

Lemma ADD_imm_cases c (S : bool) n d rotate imm8 t :
  cache_wf t ->
  exists t', ADD_imm ArmExpandImm c S n d rotate imm8 t = Ok (tt, t') /\ step_result t t'.
Proof.
  intros Hwf. destruct (decide (c = cond (current t))) as [Hc|Hc].
  - destruct (GetReg_cases n t Hwf) as (Rn & t1 & HRn & Hres).
    destruct (ADD_imm_match ArmExpandImm c S n d rotate imm8 t Hwf Hc)
      as (Rn' & t1' & HRn' & _ & Heq).
    assert (Rn' = Rn /\ t1' = t1) as [-> ->] by (split; congruence).
    simpl in Heq. rewrite Heq.
    destruct (decide (d = ArmDecoder.PC)) as [->|Hd]; eexists; (split; [reflexivity|]).
    + by apply (step_ADD_imm_PC t S n rotate imm8 Rn t1).
    + by apply (step_ADD_imm t S n d rotate imm8 Rn t1).
  - rewrite (ADD_imm_mismatch ArmExpandImm c S n d rotate imm8 t Hc).
    eexists. split; [reflexivity | by constructor].
Qed.

Lemma TranslateSingleArmInstruction_cases t :
  cache_wf t ->
  exists t', TranslateSingleArmInstruction Read32 DecodeArm ArmExpandImm t = Ok (tt, t')
             /\ step_result t t'.
Proof.
  intros Hwf.
  destruct (DecodeArm (Read32 (Z.land (arm_pc (current t)) 0xFFFFFFFC))) as [i|] eqn:Hd.
  - rewrite (TranslateSingleArmInstruction_match _ _ _ _ _ Hd).
    destruct (Visit_cases ArmExpandImm i)
      as [(c & imm24 & ->) | [(c & S & n & d & rotate & imm8 & ->) | ->]].
    + simpl. rewrite B_eq. eexists. split; [reflexivity | constructor].
    + simpl. by apply ADD_imm_cases.
    + rewrite FallbackToInterpreter_eq. eexists. split; [reflexivity | constructor].
  - rewrite (TranslateSingleArmInstruction_no_match _ _ _ _ Hd).
    eexists. split; [reflexivity | constructor].
Qed.

Lemma GetReg_result_cache_wf reg t v t1 :
  GetReg_result reg t v t1 -> cache_wf t -> cache_wf t1.
Proof.
  unfold cache_wf. destruct 1; simpl; try done. by rewrite length_insert.
Qed.

Lemma GetReg_result_frame reg t v t1 :
  GetReg_result reg t v t1 ->
  current t1 = current t /\ stop_compilation t1 = stop_compilation t /\
  term t1 = term t /\ instructions_translated t1 = instructions_translated t /\
  location (MicroBuilder.block (ir t1)) = location (MicroBuilder.block (ir t)).
Proof. by destruct 1. Qed.

Lemma step_result_cache_wf t t' : step_result t t' -> cache_wf t -> cache_wf t'.
Proof.
  unfold cache_wf. destruct 1 as [| | |S n rotate imm8 Rn t1 Hres|S n d rotate imm8 Rn t1 Hd Hres];
    simpl; try done; intros Hwf;
    pose proof (GetReg_result_cache_wf _ _ _ _ Hres Hwf) as Hwf1; unfold cache_wf in Hwf1;
    try done.
  by rewrite length_insert.
Qed.

(** The two ways in which the loop is left: after its first iteration, or
    after a second one that began at the start of a page. *)
Inductive run_result (t : ArmTranslator) : ArmTranslator -> Prop :=
| run_one t1 :
    step_result t t1 ->
    stop_compilation t1 = true \/ Z.land (arm_pc (current t1)) 0xFFF <> 0 ->
    run_result t (count_instruction t1)
| run_two t1 t2 :
    step_result t t1 ->
    stop_compilation t1 = false ->
    Z.land (arm_pc (current t1)) 0xFFF = 0 ->
    step_result (count_instruction t1) t2 ->
    run_result t (count_instruction t2).

Lemma step_result_pc t t' :
  step_result t t' -> stop_compilation t = false -> stop_compilation t' = false ->
  current t' = set_arm_pc (u32 (arm_pc (current t) + 4)) (current t).
Proof.
  destruct 1 as [| | | |S n d rotate imm8 Rn t1 Hd Hres]; simpl; try discriminate.
  intros _ _. by destruct (GetReg_result_frame _ _ _ _ Hres) as (-> & _).
Qed.

Lemma Translate_loop_run t :
  cache_wf t -> stop_compilation t = false ->
  exists t',
    (forall k, Translate_loop Read32 DecodeArm ArmExpandImm (2 + k) t = Some (Ok t')) /\
    run_result t t'.
Proof.
  intros Hwf Hs.
  destruct (TranslateSingleArmInstruction_cases t Hwf) as (t1 & Ht1 & Hr1).
  destruct (stop_compilation t1) eqn:Hs1.
  { exists (count_instruction t1). split; [|apply run_one; auto].
    intros k. change (2 + k)%nat with (S (S k)).
    by rewrite Translate_loop_unfold, Ht1, stop_compilation_count, Hs1. }
  destruct (negb (Z.land (arm_pc (current t1)) 0xFFF =? 0)) eqn:Hpage.
  { exists (count_instruction t1). split.
    - intros k. change (2 + k)%nat with (S (S k)).
      by rewrite Translate_loop_unfold, Ht1, stop_compilation_count, Hs1, current_count, Hpage.
    - apply run_one; [done|]. right. by apply negb_true_iff, Z.eqb_neq in Hpage. }
  assert (cache_wf (count_instruction t1)) as Hwf1
    by apply (step_result_cache_wf _ _ Hr1 Hwf).
  destruct (TranslateSingleArmInstruction_cases _ Hwf1) as (t2 & Ht2 & Hr2).
  pose proof Hpage as Hpage'. apply negb_false_iff, Z.eqb_eq in Hpage'.
  exists (count_instruction t2). split; [|by eapply run_two].
  intros k. change (2 + k)%nat with (S (S k)).
  rewrite Translate_loop_unfold, Ht1, stop_compilation_count, Hs1, current_count, Hpage.
  rewrite Translate_loop_unfold, Ht2, stop_compilation_count, current_count.
  destruct (stop_compilation t2) eqn:Hs2; [done|].
  rewrite (step_result_pc _ _ Hr2 Hs1 Hs2), current_count. simpl arm_pc.
  by rewrite (land_page_advance _ Hpage').
Qed.

(** Every run of [Translate(location)] that returns, returns the state of
    one of these two shapes. *)
Lemma Translate_state_run fuel loc t :
  Translate_state Read32 DecodeArm ArmExpandImm fuel (ArmTranslator_new loc) = Some (Ok t) ->
  exists t', t = set_stop_compilation true t' /\ run_result (ArmTranslator_new loc) t' /\
             forall k, Translate_state Read32 DecodeArm ArmExpandImm (2 + k)
                         (ArmTranslator_new loc) = Some (Ok t).
Proof.
  rewrite Translate_state_new.
  destruct (Translate_loop _ _ _ fuel _) as [[t0|f]|] eqn:Hloop; try discriminate.
  intros [= <-].
  destruct (Translate_loop_run (ArmTranslator_new loc) (cache_wf_new loc) eq_refl)
    as (t' & Hrun & Hres).
  apply (Translate_loop_fuel_mono _ _ _ _ 2) in Hloop.
  rewrite Nat.add_comm, Hrun in Hloop. injection Hloop as <-.
  exists t'. split; [done|]. split; [done|].
  intros k. by rewrite Translate_state_new, Hrun.
Qed.

Lemma Translate_state_returns loc :
  exists t',
    run_result (ArmTranslator_new loc) t' /\
    forall k, Translate_state Read32 DecodeArm ArmExpandImm (2 + k) (ArmTranslator_new loc)
              = Some (Ok (set_stop_compilation true t')).
Proof.
  destruct (Translate_loop_run (ArmTranslator_new loc) (cache_wf_new loc) eq_refl)
    as (t' & Hrun & Hres).
  exists t'. split; [done|]. intros k. by rewrite Translate_state_new, Hrun.
Qed.

End Shapes.

Section BlockSize.

Variable Read32 : Z -> Z.
Variable DecodeArm : Z -> option ArmDecoder.Instruction.
Variable ArmExpandImm : ArmImm8 -> Z -> Z.

(** ** The size of a block *)

Lemma GetReg_result_size reg t v t1 :
  GetReg_result reg t v t1 ->
  (length (body t) <= length (body t1) <= length (body t) + 1)%nat.
Proof. destruct 1; simpl; rewrite ?length_app; simpl; lia. Qed.

Lemma step_result_size t t' :
  step_result ArmExpandImm t t' ->
  instructions_translated t' = instructions_translated t /\
  (length (body t) <= length (body t') <= length (body t) + 4)%nat /\
  (stop_compilation t' = false -> length (body t') <= length (body t) + 3)%nat.
Proof.
  destruct 1 as [| | |S n rotate imm8 Rn t1 Hres|S n d rotate imm8 Rn t1 Hd Hres];
    simpl; try (split; [reflexivity|]; split; [lia | intros; lia]);
    pose proof (GetReg_result_size _ _ _ _ Hres) as Hsize;
    destruct (GetReg_result_frame _ _ _ _ Hres) as (_ & _ & _ & Hcount & _);
    (split; [exact Hcount|]); rewrite !length_app; simpl;
    (split; [lia|]); intros; first [discriminate | lia].
Qed.

(** X1.  A block holds at most two guest instructions and at most seven
    nodes.  When [Translate] returns, [instructions_translated] is 1 or 2,
    and it is 2 only if the address after the first instruction is the
    start of a page. *)
Theorem Translate_at_most_two_instructions
    (fuel : nat) (loc : LocationDescriptor) (t : ArmTranslator) :
  Translate_state Read32 DecodeArm ArmExpandImm fuel (ArmTranslator_new loc) = Some (Ok t) ->
  (instructions_translated t = 1 \/
   instructions_translated t = 2 /\ Z.land (u32 (arm_pc loc + 4)) 0xFFF = 0) /\
  (length (body t) <= 7)%nat.
Proof.
  intros Ht. destruct (Translate_state_run _ _ _ _ _ _ Ht) as (t' & -> & Hrun & _).
  destruct Hrun as [t1 Hr1 Hexit | t1 t2 Hr1 Hs1 Hpage Hr2].
  - destruct (step_result_size _ _ Hr1) as (Hcount & Hsize & _). simpl in *.
    rewrite Hcount. split; [by left | lia].
  - destruct (step_result_size _ _ Hr1) as (Hcount1 & _ & Hsize1).
    destruct (step_result_size _ _ Hr2) as (Hcount2 & Hsize2 & _).
    specialize (Hsize1 Hs1). simpl in *.
    rewrite Hcount2, Hcount1. split; [|lia].
    right. split; [reflexivity|].
    by rewrite (step_result_pc _ _ _ Hr1 eq_refl Hs1) in Hpage.
Qed.

(** ** Which instructions extend a block *)

(** X2.  A handler leaves the stop flag clear exactly when the instruction
    is an [ADD_imm] whose condition is that of the block and whose
    destination is not the program counter: every other instruction, and
    every word that does not decode, ends the block. *)
Theorem only_ADD_imm_extends_a_block (t t1 : ArmTranslator) :
  cache_wf t ->
  stop_compilation t = false ->
  TranslateSingleArmInstruction Read32 DecodeArm ArmExpandImm t = Ok (tt, t1) ->
  (stop_compilation t1 = false <->
   exists c S_ n d rotate imm8,
     DecodeArm (Read32 (Z.land (arm_pc (current t)) 0xFFFFFFFC))
     = Some (ArmDecoder.ADD_imm c S_ n d rotate imm8) /\
     c = cond (current t) /\ d <> ArmDecoder.PC).
Proof.
  intros Hwf Hs Hstep. split.
  - intros Hs1.
    destruct (DecodeArm (Read32 (Z.land (arm_pc (current t)) 0xFFFFFFFC))) as [i|] eqn:Hd.
    + rewrite (TranslateSingleArmInstruction_match _ _ _ _ _ Hd) in Hstep.
      destruct (Visit_cases ArmExpandImm i)
        as [(c & imm24 & ->) | [(c & S_ & n & d & rotate & imm8 & ->) | Hv]].
      * simpl in Hstep. rewrite B_eq in Hstep. injection Hstep as <-. discriminate Hs1.
      * simpl in Hstep. destruct (decide (c = cond (current t))) as [Hc|Hc].
        -- destruct (ADD_imm_match ArmExpandImm c S_ n d rotate imm8 t Hwf Hc)
             as (Rn & t1' & _ & _ & Heq).
           simpl in Heq. rewrite Heq in Hstep.
           case_decide as Hdest; injection Hstep as <-.
           ++ discriminate Hs1.
           ++ by eauto 10.
        -- rewrite (ADD_imm_mismatch ArmExpandImm c S_ n d rotate imm8 t Hc) in Hstep.
           injection Hstep as <-. discriminate Hs1.
      * rewrite Hv, FallbackToInterpreter_eq in Hstep. injection Hstep as <-.
        discriminate Hs1.
    + rewrite (TranslateSingleArmInstruction_no_match _ _ _ _ Hd) in Hstep.
      injection Hstep as <-. discriminate Hs1.
  - intros (c & S_ & n & d & rotate & imm8 & Hd & Hc & Hdest).
    rewrite (TranslateSingleArmInstruction_match _ _ _ _ _ Hd) in Hstep. simpl in Hstep.
    destruct (ADD_imm_match ArmExpandImm c S_ n d rotate imm8 t Hwf Hc)
      as (Rn & t1' & _ & Hext & Heq).
    simpl in Heq. rewrite Heq in Hstep.
    case_decide; [done|].
    injection Hstep as <-. simpl. by rewrite (ext_stop _ _ Hext).
Qed.

End BlockSize.

Section SSA.

Variable Read32 : Z -> Z.
Variable DecodeArm : Z -> option ArmDecoder.Instruction.
Variable ArmExpandImm : ArmImm8 -> Z -> Z.

(** ** The body as a program in SSA form *)

(** The operands of a node: [GetArg()] of a [MicroSetGPR], the [args] of a
    [MicroInst]; constants and register reads have none. *)
Definition operands (v : MicroValue) : list ValueRef :=
  match v with
  | MicroSetGPR _ arg => [arg]
  | MicroInst _ args _ => args
  | MicroConstU32 _ | MicroGetGPR _ => []
  end.

(** What holds of the body and the register cache between two calls of the
    builder. *)
Record ssa_inv (t : ArmTranslator) : Prop := {
  si_cache : cache_wf t;
  si_handles : forall i v, reg_values t !! i = Some (Some v) -> (v < length (body t))%nat;
  si_operands : forall i v, body t !! i = Some v -> Forall (fun a => (a < i)%nat) (operands v);
  si_read_once : forall i j reg,
      body t !! i = Some (MicroGetGPR reg) -> body t !! j = Some (MicroGetGPR reg) -> i = j;
  si_read_cached : forall i reg,
      body t !! i = Some (MicroGetGPR reg) ->
      reg <> ArmDecoder.PC /\
      exists v, reg_values t !! ArmDecoder.Register_index reg = Some (Some v);
  si_slot_reg : forall reg reg' v,
      reg_values t !! ArmDecoder.Register_index reg = Some (Some v) ->
      body t !! v = Some (MicroGetGPR reg') -> reg' = reg
}.

Lemma ssa_inv_new loc : ssa_inv (ArmTranslator_new loc).
Proof.
  split; try done.
  intros i v Hv. unfold ArmTranslator_new in Hv. cbn [reg_values] in Hv.
  apply lookup_replicate in Hv as [? _]. done.
Qed.

Lemma ssa_inv_frame t t' :
  body t' = body t -> reg_values t' = reg_values t -> ssa_inv t -> ssa_inv t'.
Proof.
  intros Hb Hc []. split; unfold cache_wf in *; rewrite ?Hb, ?Hc; assumption.
Qed.

Lemma ssa_inv_emit v t :
  ssa_inv t ->
  Forall (fun a => (a < length (body t))%nat) (operands v) ->
  (forall reg, v <> MicroGetGPR reg) ->
  ssa_inv (emit_node v t).
Proof.
  intros [Hwf Hh Ho Hr Hc Hs] Hops Hv. split; simpl.
  - exact Hwf.
  - intros i w Hw. specialize (Hh i w Hw). rewrite length_app. simpl. lia.
  - intros i w Hw. apply lookup_snoc_Some in Hw as [[_ Hw]|[-> <-]]; [by eapply Ho | done].
  - intros i j reg Hi Hj.
    apply lookup_snoc_Some in Hi as [[_ Hi]|[_ Hi]]; [|by destruct (Hv reg)].
    apply lookup_snoc_Some in Hj as [[_ Hj]|[_ Hj]]; [|by destruct (Hv reg)].
    by eapply Hr.
  - intros i reg Hi.
    apply lookup_snoc_Some in Hi as [[_ Hi]|[_ Hi]]; [by eapply Hc | by destruct (Hv reg)].
  - intros reg reg' w Hw Hb. pose proof (Hh _ _ Hw) as Hlt.
    apply lookup_snoc_Some in Hb as [[_ Hb]|[-> _]]; [by eapply Hs | lia].
Qed.

Lemma ssa_inv_first_read reg t :
  ssa_inv t -> reg <> ArmDecoder.PC ->
  reg_values t !! ArmDecoder.Register_index reg = Some None ->
  ssa_inv (set_reg_values
             (<[ArmDecoder.Register_index reg := Some (length (body t))]> (reg_values t))
             (emit_node (MicroGetGPR reg) t)).
Proof.
  intros [Hwf Hh Ho Hr Hc Hs] Hreg Hslot.
  pose proof (Register_index_lt _ Hreg) as Hlt. unfold cache_wf in Hwf.
  split; simpl.
  - unfold cache_wf. simpl. by rewrite length_insert.
  - intros i w Hw. rewrite length_app. simpl.
    apply list_lookup_insert_Some in Hw as [(_ & [= <-] & _)|[_ Hw]]; [lia|].
    specialize (Hh i w Hw). lia.
  - intros i w Hw.
    apply lookup_snoc_Some in Hw as [[_ Hw]|[-> <-]]; [by eapply Ho | constructor].
  - intros i j reg0 Hi Hj.
    apply lookup_snoc_Some in Hi as [[_ Hi]|[-> [= <-]]];
      apply lookup_snoc_Some in Hj as [[_ Hj]|[-> Hj']]; try done.
    + by eapply Hr.
    + injection Hj' as <-. destruct (Hc _ _ Hi) as (_ & w & Hw). congruence.
    + destruct (Hc _ _ Hj) as (_ & w & Hw). congruence.
  - intros i reg0 Hi.
    assert (reg0 <> ArmDecoder.PC /\
            (reg0 = reg \/ exists v,
                reg_values t !! ArmDecoder.Register_index reg0 = Some (Some v)))
      as [Hreg0 Hcases].
    { apply lookup_snoc_Some in Hi as [[_ Hi]|[_ [= <-]]]; [|by auto].
      destruct (Hc _ _ Hi) as (? & ? & ?). eauto. }
    split; [exact Hreg0|].
    destruct (decide (reg0 = reg)) as [->|Hne].
    + eexists. apply list_lookup_insert_eq. lia.
    + destruct Hcases as [|[w Hw]]; [done|]. exists w.
      rewrite list_lookup_insert_ne; [done|].
      intros Heq. by apply Register_index_inj in Heq.
  - intros reg0 reg' w Hw Hb.
    apply list_lookup_insert_Some in Hw as [(Heq & [= <-] & _)|[_ Hw]].
    + apply Register_index_inj in Heq as <-.
      apply lookup_snoc_Some in Hb as [[? _]|[_ [= <-]]]; [lia | done].
    + pose proof (Hh _ _ Hw).
      apply lookup_snoc_Some in Hb as [[_ Hb]|[-> _]]; [by eapply Hs | lia].
Qed.

Lemma ssa_inv_set_reg d v t :
  ssa_inv t -> d <> ArmDecoder.PC -> (v < length (body t))%nat ->
  (forall reg, body t !! v <> Some (MicroGetGPR reg)) ->
  ssa_inv (set_reg_values (<[ArmDecoder.Register_index d := Some v]> (reg_values t)) t).
Proof.
  intros [Hwf Hh Ho Hr Hc Hs] Hd Hv Hnode.
  pose proof (Register_index_lt _ Hd) as Hlt. unfold cache_wf in Hwf.
  split; simpl; try done.
  - unfold cache_wf. simpl. by rewrite length_insert.
  - intros i w Hw.
    apply list_lookup_insert_Some in Hw as [(_ & [= <-] & _)|[_ Hw]]; [done | by eapply Hh].
  - intros i reg Hi. destruct (Hc _ _ Hi) as (Hreg & w & Hw). split; [exact Hreg|].
    destruct (decide (reg = d)) as [->|Hne].
    + eexists. apply list_lookup_insert_eq. lia.
    + exists w. rewrite list_lookup_insert_ne; [done|].
      intros Heq. by apply Register_index_inj in Heq.
  - intros reg reg' w Hw Hb.
    apply list_lookup_insert_Some in Hw as [(_ & [= <-] & _)|[_ Hw]];
      [by destruct (Hnode reg') | by eapply Hs].
Qed.

Lemma ssa_inv_GetReg reg t v t1 :
  GetReg_result reg t v t1 -> ssa_inv t ->
  ssa_inv t1 /\ (v < length (body t1))%nat.
Proof.
  destruct 1 as [|v Hreg Hv|Hreg Hv]; intros Hinv.
  - split; [by apply ssa_inv_emit|]. simpl. rewrite length_app. simpl. lia.
  - split; [done | by eapply si_handles].
  - split; [by apply ssa_inv_first_read|]. simpl. rewrite length_app. simpl. lia.
Qed.

Lemma ssa_inv_ADD_imm_emitted (S : bool) rotate imm8 Rn t1 :
  ssa_inv t1 -> (Rn < length (body t1))%nat ->
  ssa_inv (ADD_imm_emitted ArmExpandImm S rotate imm8 Rn t1).
Proof.
  intros Hinv HRn. unfold ADD_imm_emitted. apply ssa_inv_emit; [|simpl|done].
  - by apply ssa_inv_emit.
  - rewrite length_app. simpl. repeat constructor; lia.
Qed.

Lemma ssa_inv_step t t' : step_result ArmExpandImm t t' -> ssa_inv t -> ssa_inv t'.
Proof.
  destruct 1 as [| | |S n rotate imm8 Rn t1 Hres|S n d rotate imm8 Rn t1 Hd Hres];
    intros Hinv; try (by eapply ssa_inv_frame; [| |exact Hinv]).
  - destruct (ssa_inv_GetReg _ _ _ _ Hres Hinv) as [Hinv1 HRn].
    match goal with
    | |- ssa_inv (advance_pc (stop_with _ ?x)) => apply (ssa_inv_frame x); [reflexivity | reflexivity |]
    end.
    apply ssa_inv_emit; [by apply ssa_inv_ADD_imm_emitted | | done].
    simpl. rewrite !length_app. simpl. repeat constructor; lia.
  - destruct (ssa_inv_GetReg _ _ _ _ Hres Hinv) as [Hinv1 HRn].
    match goal with
    | |- ssa_inv (advance_pc ?x) => apply (ssa_inv_frame x); [reflexivity | reflexivity |]
    end.
    apply (ssa_inv_set_reg d _ (ADD_imm_emitted ArmExpandImm S rotate imm8 Rn t1)).
    + by apply ssa_inv_ADD_imm_emitted.
    + exact Hd.
    + simpl. rewrite !length_app. simpl. lia.
    + intros reg. simpl. rewrite <- app_assoc, lookup_app_r by lia.
      replace (Datatypes.S (length (body t1)) - length (body t1))%nat with 1%nat by lia.
      discriminate.
Qed.

Lemma ssa_inv_run t t' : run_result ArmExpandImm t t' -> ssa_inv t -> ssa_inv t'.
Proof.
  destruct 1 as [t1 Hr1 _ | t1 t2 Hr1 _ _ Hr2]; intros Hinv.
  - apply (ssa_inv_frame t1); [reflexivity | reflexivity |]. by eapply ssa_inv_step.
  - apply (ssa_inv_frame t2); [reflexivity | reflexivity |].
    eapply ssa_inv_step; [exact Hr2|].
    apply (ssa_inv_frame t1); [reflexivity | reflexivity |]. by eapply ssa_inv_step.
Qed.

Lemma Translate_state_ssa_inv fuel loc t :
  Translate_state Read32 DecodeArm ArmExpandImm fuel (ArmTranslator_new loc) = Some (Ok t) ->
  ssa_inv t.
Proof.
  intros Ht. destruct (Translate_state_run _ _ _ _ _ _ Ht) as (t' & -> & Hrun & _).
  apply (ssa_inv_frame t'); [reflexivity | reflexivity |].
  eapply ssa_inv_run; [exact Hrun | apply ssa_inv_new].
Qed.

(** X3.  The body of a returned block is in topological order: every
    operand of every node is the handle of a node strictly earlier in the
    body.  Every handle left in the register cache is the handle of a node
    of the body. *)
Theorem Translate_body_is_topological
    (fuel : nat) (loc : LocationDescriptor) (t : ArmTranslator) :
  Translate_state Read32 DecodeArm ArmExpandImm fuel (ArmTranslator_new loc) = Some (Ok t) ->
  (forall i v a,
     body t !! i = Some v -> a ∈ operands v -> (a < i)%nat /\ is_Some (body t !! a)) /\
  (forall reg v,
     reg_values t !! ArmDecoder.Register_index reg = Some (Some v) ->
     is_Some (body t !! v)).
Proof.
  intros Ht. pose proof (Translate_state_ssa_inv _ _ _ Ht) as Hinv. split.
  - intros i v a Hv Ha. pose proof (si_operands _ Hinv _ _ Hv) as Hops.
    rewrite Forall_forall in Hops. specialize (Hops a Ha). split; [exact Hops|].
    apply lookup_lt_is_Some_2. apply lookup_lt_Some in Hv. lia.
  - intros reg v Hv. apply lookup_lt_is_Some_2. by eapply si_handles.
Qed.

(** X4.  A guest register is read at most once in a block: the body holds
    at most one [GetGPR] node for each register.  The register of such a
    node has its cache slot filled, and a cache slot whose handle is that
    of a [GetGPR] node holds the read of its own register. *)
Theorem Translate_reads_each_register_once
    (fuel : nat) (loc : LocationDescriptor) (t : ArmTranslator) :
  Translate_state Read32 DecodeArm ArmExpandImm fuel (ArmTranslator_new loc) = Some (Ok t) ->
  (forall i j reg,
     body t !! i = Some (MicroGetGPR reg) -> body t !! j = Some (MicroGetGPR reg) -> i = j) /\
  (forall i reg,
     body t !! i = Some (MicroGetGPR reg) ->
     exists v, reg_values t !! ArmDecoder.Register_index reg = Some (Some v)) /\
  (forall reg reg' v,
     reg_values t !! ArmDecoder.Register_index reg = Some (Some v) ->
     body t !! v = Some (MicroGetGPR reg') -> reg' = reg).
Proof.
  intros Ht. pose proof (Translate_state_ssa_inv _ _ _ Ht) as Hinv.
  split; [apply (si_read_once _ Hinv)|]. split; [|apply (si_slot_reg _ Hinv)].
  intros i reg Hi. by destruct (si_read_cached _ Hinv _ _ Hi).
Qed.

End SSA.

Section Terminals.

Variable Read32 : Z -> Z.
Variable DecodeArm : Z -> option ArmDecoder.Instruction.
Variable ArmExpandImm : ArmImm8 -> Z -> Z.

(** ** The terminal of a block *)

(** The terminals that [FallbackToInterpreter], [B] and [ConditionPassed]
    set for a block entered at [loc], the translator being at the address
    [pc]. *)
Inductive built_terminal (loc : LocationDescriptor) (pc : Z) : MicroTerminal -> Prop :=
| built_interpret :
    built_terminal loc pc
      (MicroTerm.Interpret {| arm_pc := pc; TFlag := TFlag loc; EFlag := EFlag loc;
                              cond := cond loc |})
| built_branch imm24 :
    built_terminal loc pc
      (MicroTerm.LinkBlock {| arm_pc := u32 (pc + imm24); TFlag := TFlag loc;
                              EFlag := EFlag loc; cond := cond loc |})
| built_condition c :
    c <> cond loc ->
    built_terminal loc pc
      (MicroTerm.LinkBlock {| arm_pc := pc; TFlag := TFlag loc; EFlag := EFlag loc;
                              cond := c |}).

Lemma built_terminal_same_mode loc loc' pc tm :
  TFlag loc' = TFlag loc -> EFlag loc' = EFlag loc -> cond loc' = cond loc ->
  built_terminal loc' pc tm -> built_terminal loc pc tm.
Proof.
  intros HT HE Hc. destruct 1 as [|imm24|c Hne]; rewrite ?HT, ?HE, ?Hc;
    try constructor. by rewrite Hc in Hne.
Qed.

(** The node that [ALUWritePC] leaves at the end of the body. *)
Definition ends_with_AluWritePC (l : list MicroValue) : Prop :=
  exists v, last l = Some (MicroInst MicroOp.AluWritePC [v] MicroArmFlags.None).

Lemma step_result_terminal t t' :
  step_result ArmExpandImm t t' ->
  (stop_compilation t' = stop_compilation t /\ term t' = term t /\
   current t' = set_arm_pc (u32 (arm_pc (current t) + 4)) (current t)) \/
  (stop_compilation t' = true /\
   built_terminal (current t) (arm_pc (current t)) (term t')) \/
  (stop_compilation t' = true /\ ends_with_AluWritePC (body t')).
Proof.
  destruct 1 as [| |c Hc|S n rotate imm8 Rn t1 Hres|S n d rotate imm8 Rn t1 Hd Hres].
  - right. left. split; [reflexivity|]. simpl. destruct (current t). constructor.
  - right. left. split; [reflexivity|]. simpl. constructor.
  - right. left. split; [reflexivity|]. simpl. by constructor.
  - right. right. split; [reflexivity|]. eexists. simpl. apply last_snoc.
  - left. destruct (GetReg_result_frame _ _ _ _ Hres) as (Hcur & Hstop & Hterm & _).
    simpl. by rewrite Hcur, Hstop, Hterm.
Qed.

Lemma run_result_terminal loc t' :
  run_result ArmExpandImm (ArmTranslator_new loc) t' ->
  ends_with_AluWritePC (body t') \/
  (stop_compilation t' = false /\ term t' = MicroTerm.default) \/
  built_terminal loc (arm_pc loc) (term t') \/
  built_terminal loc (u32 (arm_pc loc + 4)) (term t').
Proof.
  destruct 1 as [t1 Hr1 _ | t1 t2 Hr1 Hs1 _ Hr2].
  - destruct (step_result_terminal _ _ Hr1) as [(Hstop & Hterm & _)|[[_ Hbuilt]|[_ Halu]]].
    + right. left. simpl. by rewrite Hstop, Hterm.
    + right. right. by left.
    + by left.
  - destruct (step_result_terminal _ _ Hr1) as [(_ & Hterm1 & Hcur1)|[[Hstop _]|[Hstop _]]];
      [|congruence..].
    destruct (step_result_terminal _ _ Hr2) as [(Hstop2 & Hterm2 & _)|[[_ Hbuilt]|[_ Halu]]].
    + right. left. simpl in *. by rewrite Hstop2, Hterm2, Hterm1.
    + right. right. right. simpl in Hbuilt. rewrite Hcur1 in Hbuilt.
      by apply (built_terminal_same_mode loc) in Hbuilt.
    + by left.
Qed.

Lemma Translate_block fuel loc blk :
  Translate Read32 DecodeArm ArmExpandImm fuel loc = Some (Ok blk) ->
  exists t,
    Translate_state Read32 DecodeArm ArmExpandImm fuel (ArmTranslator_new loc) = Some (Ok t) /\
    blk = MicroBuilder.block (ir t).
Proof.
  unfold Translate.
  destruct (Translate_state _ _ _ fuel _) as [[t|f]|]; try discriminate.
  intros [= <-]. eauto.
Qed.

Lemma Translate_built_terminal fuel loc blk :
  Translate Read32 DecodeArm ArmExpandImm fuel loc = Some (Ok blk) ->
  ends_with_AluWritePC (instructions blk) \/
  terminal blk = MicroTerm.default \/
  built_terminal loc (arm_pc loc) (terminal blk) \/
  built_terminal loc (u32 (arm_pc loc + 4)) (terminal blk).
Proof.
  intros Hblk. destruct (Translate_block _ _ _ Hblk) as (t & Ht & ->).
  destruct (Translate_state_run _ _ _ _ _ _ Ht) as (t' & -> & Hrun & _).
  destruct (run_result_terminal _ _ Hrun) as [H|[[_ H]|H]]; auto.
Qed.

(** X5.  Leave aside the blocks that end with the [AluWritePC] node of
    [ALUWritePC], the function that [ADD_imm] calls for a write to the
    program counter and that [translate.cpp] does not define: nothing is
    said of their terminal.  The terminal of every other returned block is
    the [ReturnToDispatch] the block was constructed with (no handler
    stopped it), an [Interpret] or a [LinkBlock]; it is never [PopRSBHint],
    [LinkBlockFast] or [If].  The location it names has the mode flags of
    the entry location.  An [Interpret] names the entry location itself or
    the instruction after it; a [LinkBlock] keeps the entry condition (a
    branch) or names one of those two addresses under another condition. *)
Theorem Translate_terminal_shape
    (fuel : nat) (loc : LocationDescriptor) (blk : MicroBlock) :
  Translate Read32 DecodeArm ArmExpandImm fuel loc = Some (Ok blk) ->
  (exists v,
     last (instructions blk)
     = Some (MicroInst MicroOp.AluWritePC [v] MicroArmFlags.None)) \/
  terminal blk = MicroTerm.ReturnToDispatch \/
  (exists pc,
     (pc = arm_pc loc \/ pc = u32 (arm_pc loc + 4)) /\
     terminal blk = MicroTerm.Interpret
                      {| arm_pc := pc; TFlag := TFlag loc; EFlag := EFlag loc;
                         cond := cond loc |}) \/
  (exists pc c,
     (c = cond loc \/ c <> cond loc /\ (pc = arm_pc loc \/ pc = u32 (arm_pc loc + 4))) /\
     terminal blk = MicroTerm.LinkBlock
                      {| arm_pc := pc; TFlag := TFlag loc; EFlag := EFlag loc; cond := c |}).
Proof.
  intros Hblk.
  destruct (Translate_built_terminal _ _ _ Hblk) as [Halu|[Hdefault|[Hb|Hb]]];
    [by left | by right; left | ..];
    destruct Hb as [|imm24|c Hc]; eauto 10.
Qed.

(** ** The nodes of a block *)

(** X7.  A returned block holds nodes of four opcodes only: [ConstU32],
    [GetGPR], [Add] and [AluWritePC]. *)
Theorem Translate_emits_four_opcodes
    (fuel : nat) (loc : LocationDescriptor) (blk : MicroBlock) :
  Translate Read32 DecodeArm ArmExpandImm fuel loc = Some (Ok blk) ->
  Forall (fun v => GetOp v = MicroOp.ConstU32 \/ GetOp v = MicroOp.GetGPR \/
                   GetOp v = MicroOp.Add \/ GetOp v = MicroOp.AluWritePC)
    (instructions blk).
Proof.
  rewrite Translate_eq.
  destruct (Translate_loop _ _ _ fuel _) as [r|] eqn:Hloop; [|discriminate].
  destruct (Translate_loop_result _ _ _ _ _ _ (cache_wf_new loc) Hloop)
    as (t & -> & Hpost & _).
  intros [= <-]. destruct (rp_body _ _ Hpost) as (l & -> & Hl). simpl.
  eapply Forall_impl; [exact Hl|].
  intros v Hv. destruct Hv; simpl; auto.
Qed.

(** ** A translator translates once *)

(** X8.  [Translate()] leaves the stop flag set, and a second call on the
    same translator fails its assertion, whatever was translated. *)
Theorem Translate_is_one_shot (fuel : nat) (t t' : ArmTranslator) :
  Translate_state Read32 DecodeArm ArmExpandImm fuel t = Some (Ok t') ->
  stop_compilation t = false /\
  stop_compilation t' = true /\
  forall fuel', Translate_state Read32 DecodeArm ArmExpandImm fuel' t'
                = Some (Abort AssertionFailed).
Proof.
  unfold Translate_state at 1. destruct (stop_compilation t) eqn:Hs; [discriminate|].
  destruct (Translate_loop _ _ _ fuel _) as [[t0|f]|]; try discriminate.
  rewrite Translate_writeback_id. intros [= <-]. by repeat split.
Qed.

End Terminals.

Section Forwarding.

Variable ArmExpandImm : ArmImm8 -> Z -> Z.

(** ** Register values pass from one instruction to the next *)

(** X9.  After an [ADD_imm] that passes its condition test and writes a
    register [d] other than the program counter, the cache slot of [d]
    holds the handle of the [Add] node: [GetReg(d)] returns it and emits
    nothing.  A following [ADD_imm] that reads [d] therefore takes that
    [Add] node as the first operand of its own. *)
Theorem ADD_imm_result_is_forwarded
    (c : Cond) (S_ : bool) (n d : ArmReg) (rotate : Z) (imm8 : ArmImm8) (t : ArmTranslator) :
  cache_wf t ->
  c = cond (current t) ->
  d <> ArmDecoder.PC ->
  exists Rn imm32 result t',
    ADD_imm ArmExpandImm c S_ n d rotate imm8 t = Ok (tt, t') /\
    body t' !! imm32 = Some (MicroConstU32 (ArmExpandImm imm8 rotate)) /\
    body t' !! result
    = Some (MicroInst MicroOp.Add [Rn; imm32]
              (if S_ then MicroArmFlags.NZCV else MicroArmFlags.None)) /\
    result = (length (body t') - 1)%nat /\
    GetReg d t' = Ok (result, t') /\
    forall (S' : bool) d' rotate' imm8',
      exists t'',
        ADD_imm ArmExpandImm c S' d d' rotate' imm8' t' = Ok (tt, t'') /\
        body t'' !! Datatypes.S (length (body t'))
        = Some (MicroInst MicroOp.Add [result; length (body t')]
                  (if S' then MicroArmFlags.NZCV else MicroArmFlags.None)).
Proof.
  intros Hwf Hc Hd. pose proof (Register_index_lt _ Hd) as Hlt.
  destruct (ADD_imm_match ArmExpandImm c S_ n d rotate imm8 t Hwf Hc)
    as (Rn & t1 & _ & Hext & Heq).
  simpl in Heq. rewrite Heq. clear Heq. case_decide; [done|].
  pose proof (ext_cache _ _ Hext) as Hlen. unfold cache_wf in Hwf.
  eexists Rn, (length (body t1)), (Datatypes.S (length (body t1))), _.
  split; [reflexivity|].
  set (t' := advance_pc _).
  assert (body t' = body t1 ++ [MicroConstU32 (ArmExpandImm imm8 rotate);
                                MicroInst MicroOp.Add [Rn; length (body t1)]
                                  (if S_ then MicroArmFlags.NZCV else MicroArmFlags.None)])
    as Hbody by (subst t'; simpl; by rewrite <- app_assoc).
  assert (GetReg d t' = Ok (Datatypes.S (length (body t1)), t')) as Hget.
  { apply GetReg_cached; [exact Hd|]. subst t'. simpl.
    apply list_lookup_insert_eq. lia. }
  assert (cache_wf t') as Hwf'
    by (subst t'; unfold cache_wf; simpl; rewrite length_insert; lia).
  assert (c = cond (current t')) as Hc'
    by (subst t'; simpl; by rewrite (ext_current _ _ Hext)).
  clearbody t'.
  split; [|split; [|split; [|split; [exact Hget|]]]].
  - rewrite Hbody, lookup_app_r by lia. by rewrite Nat.sub_diag.
  - rewrite Hbody, lookup_app_r by lia.
    by replace (Datatypes.S (length (body t1)) - length (body t1))%nat with 1%nat by lia.
  - rewrite Hbody, length_app. simpl. lia.
  - intros S' d' rotate' imm8'.
    destruct (ADD_imm_match ArmExpandImm c S' d d' rotate' imm8' t' Hwf' Hc')
      as (Rn' & t1' & HRn' & _ & Heq).
    rewrite Hget in HRn'. injection HRn' as <- <-.
    simpl in Heq. rewrite Heq. clear Heq.
    case_decide; eexists; (split; [reflexivity|]); simpl;
      rewrite <- !app_assoc; rewrite lookup_app_r by lia;
      by replace (Datatypes.S (length (body t')) - length (body t'))%nat with 1%nat by lia.
Qed.

End Forwarding.

Section Memory.

Variable DecodeArm : Z -> option ArmDecoder.Instruction.
Variable ArmExpandImm : ArmImm8 -> Z -> Z.

(** ** What a translation reads of the guest memory *)

Lemma TranslateSingleArmInstruction_fetch (R R' : Z -> Z) t :
  R (Z.land (arm_pc (current t)) 0xFFFFFFFC) = R' (Z.land (arm_pc (current t)) 0xFFFFFFFC) ->
  TranslateSingleArmInstruction R DecodeArm ArmExpandImm t
  = TranslateSingleArmInstruction R' DecodeArm ArmExpandImm t.
Proof.
  intros HR. unfold TranslateSingleArmInstruction, bind, get. by rewrite HR.
Qed.

(** X10.  A translation reads at most two words of guest memory: the
    aligned word at the entry address and, if the address four bytes on is
    the start of a page, the word there.  Two memories that agree on these
    words give the same result. *)
Theorem Translate_reads_at_most_two_words (R R' : Z -> Z) (loc : LocationDescriptor) :
  R (Z.land (arm_pc loc) 0xFFFFFFFC) = R' (Z.land (arm_pc loc) 0xFFFFFFFC) ->
  (Z.land (u32 (arm_pc loc + 4)) 0xFFF = 0 ->
   R (Z.land (u32 (arm_pc loc + 4)) 0xFFFFFFFC)
   = R' (Z.land (u32 (arm_pc loc + 4)) 0xFFFFFFFC)) ->
  forall fuel,
    Translate R DecodeArm ArmExpandImm fuel loc = Translate R' DecodeArm ArmExpandImm fuel loc.
Proof.
  intros H0 H1 fuel. rewrite !Translate_eq.
  cut (Translate_loop R DecodeArm ArmExpandImm fuel (ArmTranslator_new loc)
       = Translate_loop R' DecodeArm ArmExpandImm fuel (ArmTranslator_new loc));
    [by intros ->|].
  destruct fuel as [|fuel]; [reflexivity|].
  rewrite !Translate_loop_unfold.
  rewrite (TranslateSingleArmInstruction_fetch R R' (ArmTranslator_new loc) H0).
  destruct (TranslateSingleArmInstruction_cases R' DecodeArm ArmExpandImm
              (ArmTranslator_new loc) (cache_wf_new loc)) as (t1 & -> & Hr1).
  rewrite stop_compilation_count, current_count.
  destruct (stop_compilation t1) eqn:Hs1; [reflexivity|].
  destruct (negb (Z.land (arm_pc (current t1)) 0xFFF =? 0)) eqn:Hpage; [reflexivity|].
  apply negb_false_iff, Z.eqb_eq in Hpage.
  pose proof (step_result_pc _ _ _ Hr1 eq_refl Hs1) as Hcur.
  destruct fuel as [|fuel]; [reflexivity|].
  rewrite !Translate_loop_unfold.
  assert (TranslateSingleArmInstruction R DecodeArm ArmExpandImm (count_instruction t1)
          = TranslateSingleArmInstruction R' DecodeArm ArmExpandImm (count_instruction t1))
    as ->.
  { apply TranslateSingleArmInstruction_fetch. rewrite current_count, Hcur. simpl.
    apply H1. by rewrite Hcur in Hpage. }
  assert (cache_wf (count_instruction t1)) as Hwf1
    by apply (step_result_cache_wf _ _ _ Hr1 (cache_wf_new loc)).
  destruct (TranslateSingleArmInstruction_cases R' DecodeArm ArmExpandImm _ Hwf1)
    as (t2 & -> & Hr2).
  rewrite stop_compilation_count, current_count.
  destruct (stop_compilation t2) eqn:Hs2; [reflexivity|].
  rewrite (step_result_pc _ _ _ Hr2 Hs1 Hs2), current_count. simpl arm_pc.
  by rewrite (land_page_advance _ Hpage).
Qed.

End Memory.

Section Modes.

Variable Read32 : Z -> Z.
Variable DecodeArm : Z -> option ArmDecoder.Instruction.
Variable ArmExpandImm : ArmImm8 -> Z -> Z.

(** ** The mode flags of the location *)

(** A location, a terminal, a block and a translator with the mode flags
    replaced by [T] and [E]. *)
Definition location_with_mode (T E : bool) (l : LocationDescriptor) : LocationDescriptor :=
  {| arm_pc := arm_pc l; TFlag := T; EFlag := E; cond := cond l |}.

Fixpoint terminal_with_mode (T E : bool) (tm : MicroTerminal) : MicroTerminal :=
  match tm with
  | MicroTerm.ReturnToDispatch => MicroTerm.ReturnToDispatch
  | MicroTerm.PopRSBHint => MicroTerm.PopRSBHint
  | MicroTerm.Interpret next => MicroTerm.Interpret (location_with_mode T E next)
  | MicroTerm.LinkBlock next => MicroTerm.LinkBlock (location_with_mode T E next)
  | MicroTerm.LinkBlockFast next => MicroTerm.LinkBlockFast (location_with_mode T E next)
  | MicroTerm.If c then_ else_ =>
      MicroTerm.If c (terminal_with_mode T E then_) (terminal_with_mode T E else_)
  end.

Definition block_with_mode (T E : bool) (blk : MicroBlock) : MicroBlock :=
  {| location := location_with_mode T E (location blk);
     instructions := instructions blk;
     terminal := terminal_with_mode T E (terminal blk) |}.

Definition translator_with_mode (T E : bool) (t : ArmTranslator) : ArmTranslator :=
  {| ir := {| MicroBuilder.block := block_with_mode T E (MicroBuilder.block (ir t)) |};
     current := location_with_mode T E (current t);
     instructions_translated := instructions_translated t;
     stop_compilation := stop_compilation t;
     reg_values := reg_values t |}.

Lemma ADD_imm_with_mode T E c (S : bool) n d rotate imm8 t :
  ADD_imm ArmExpandImm c S n d rotate imm8 (translator_with_mode T E t)
  = match ADD_imm ArmExpandImm c S n d rotate imm8 t with
    | Ok (_, t') => Ok (tt, translator_with_mode T E t')
    | Abort f => Abort f
    end.
Proof.
  cbv [ADD_imm ConditionPassed GetReg SetReg ALUWritePC ir_emit ir_SetTerm bind get modify
         ret abort translator_with_mode block_with_mode location_with_mode
         terminal_with_mode set_ir set_current set_stop_compilation set_reg_values
         set_arm_pc MicroBuilder.Inst MicroBuilder.ConstU32 MicroBuilder.GetGPR
         MicroBuilder.emit MicroBuilder.SetTerm MicroBuilder.TermLinkBlock
         MicroBuilder.block ir current instructions_translated stop_compilation reg_values
         location instructions terminal arm_pc TFlag EFlag cond ValueRef].
  destruct t as [[[bl bi bt]] [pc tf ef cd] it st rv].
  repeat (case_decide || case_match); simplify_eq; reflexivity.
Qed.

Lemma TranslateSingleArmInstruction_with_mode T E t :
  TranslateSingleArmInstruction Read32 DecodeArm ArmExpandImm (translator_with_mode T E t)
  = match TranslateSingleArmInstruction Read32 DecodeArm ArmExpandImm t with
    | Ok (_, t') => Ok (tt, translator_with_mode T E t')
    | Abort f => Abort f
    end.
Proof.
  unfold TranslateSingleArmInstruction, bind, get. simpl.
  destruct (DecodeArm _) as [i|]; [|reflexivity].
  destruct (Visit_cases ArmExpandImm i)
    as [(c & imm24 & ->) | [(c & S & n & d & rotate & imm8 & ->) | ->]].
  - reflexivity.
  - apply ADD_imm_with_mode.
  - reflexivity.
Qed.

Lemma Translate_loop_with_mode T E fuel t :
  Translate_loop Read32 DecodeArm ArmExpandImm fuel (translator_with_mode T E t)
  = match Translate_loop Read32 DecodeArm ArmExpandImm fuel t with
    | Some (Ok t') => Some (Ok (translator_with_mode T E t'))
    | r => r
    end.
Proof.
  revert t. induction fuel as [|fuel IH]; intros t; [reflexivity|].
  rewrite !Translate_loop_unfold, TranslateSingleArmInstruction_with_mode.
  destruct (TranslateSingleArmInstruction _ _ _ t) as [[[] t1]|f]; [|reflexivity].
  change (stop_compilation (count_instruction (translator_with_mode T E t1)))
    with (stop_compilation (count_instruction t1)).
  change (current (count_instruction (translator_with_mode T E t1)))
    with (location_with_mode T E (current (count_instruction t1))).
  destruct (stop_compilation (count_instruction t1)); [reflexivity|].
  change (arm_pc (location_with_mode T E (current (count_instruction t1))))
    with (arm_pc (current (count_instruction t1))).
  destruct (negb _); [reflexivity|]. apply (IH (count_instruction t1)).
Qed.

(** X11.  The translator consults neither mode flag: it fetches and decodes
    ARM words whether or not the location is in Thumb state.  Translating a
    location under other mode flags gives the same body, and the same
    terminal and block location up to those flags. *)
Theorem Translate_ignores_mode_flags (T E : bool) (fuel : nat) (loc : LocationDescriptor) :
  Translate Read32 DecodeArm ArmExpandImm fuel (location_with_mode T E loc)
  = match Translate Read32 DecodeArm ArmExpandImm fuel loc with
    | Some (Ok blk) => Some (Ok (block_with_mode T E blk))
    | r => r
    end.
Proof.
  rewrite !Translate_eq.
  change (ArmTranslator_new (location_with_mode T E loc))
    with (translator_with_mode T E (ArmTranslator_new loc)).
  rewrite Translate_loop_with_mode.
  by destruct (Translate_loop _ _ _ fuel _) as [[t|f]|].
Qed.

(** ** Handlers that emit nothing *)

(** X12.  Only an [ADD_imm] under the condition of the block emits nodes or
    writes the register cache: after any other instruction, and after a
    word that does not decode, the body and the cache are as before and the
    block is stopped. *)
Theorem only_ADD_imm_emits (t t1 : ArmTranslator) :
  TranslateSingleArmInstruction Read32 DecodeArm ArmExpandImm t = Ok (tt, t1) ->
  (forall S_ n d rotate imm8,
     DecodeArm (Read32 (Z.land (arm_pc (current t)) 0xFFFFFFFC))
     <> Some (ArmDecoder.ADD_imm (cond (current t)) S_ n d rotate imm8)) ->
  body t1 = body t /\ reg_values t1 = reg_values t /\ stop_compilation t1 = true.
Proof.
  intros Hstep Hnot.
  destruct (DecodeArm (Read32 (Z.land (arm_pc (current t)) 0xFFFFFFFC))) as [i|] eqn:Hd.
  - rewrite (TranslateSingleArmInstruction_match _ _ _ _ _ Hd) in Hstep.
    destruct (Visit_cases ArmExpandImm i)
      as [(c & imm24 & ->) | [(c & S_ & n & d & rotate & imm8 & ->) | Hv]].
    + simpl in Hstep. rewrite B_eq in Hstep. by injection Hstep as <-.
    + simpl in Hstep. destruct (decide (c = cond (current t))) as [->|Hc].
      * by destruct (Hnot S_ n d rotate imm8).
      * rewrite (ADD_imm_mismatch ArmExpandImm c S_ n d rotate imm8 t Hc) in Hstep.
        by injection Hstep as <-.
    + rewrite Hv, FallbackToInterpreter_eq in Hstep. by injection Hstep as <-.
  - rewrite (TranslateSingleArmInstruction_no_match _ _ _ _ Hd) in Hstep.
    by injection Hstep as <-.
Qed.

End Modes.

(** ** The use list of a node ([MicroValue] in [ir.h]) *)

Module MicroValueUses.

(** [MicroValue::Use]: the value used and the node that uses it. *)
Record Use : Set := { value : ValueRef; use_owner : ValueRef }.

Definition HasUses (uses : list Use) : bool :=
  match uses with [] => false | _ :: _ => true end.

Definition HasOneUse (uses : list Use) : bool := Nat.eqb (length uses) 1.

Definition HasManyUses (uses : list Use) : bool := Nat.ltb 1 (length uses).

End MicroValueUses.

(** X13.  A node has uses exactly when it has one use or many, never both;
    it has none exactly when its use list is empty. *)
Theorem use_count_cases (uses : list MicroValueUses.Use) :
  MicroValueUses.HasUses uses
  = MicroValueUses.HasOneUse uses || MicroValueUses.HasManyUses uses /\
  MicroValueUses.HasOneUse uses && MicroValueUses.HasManyUses uses = false /\
  (MicroValueUses.HasUses uses = false <-> uses = []) /\
  (MicroValueUses.HasOneUse uses = true <-> exists u, uses = [u]).
Proof.
  destruct uses as [|u [|u' uses]]; repeat split; try done; try (by intros [? ?]).
  by exists u.
Qed.

(** * The translator on concrete programs *)

Import Sample.

(** ** C1: the page boundary *)

(** C1 fails on the code: the page test of the loop is inverted.  The loop
    reads [if ((current.arm_pc & 0xFFF) != 0) break;]: after a handler that
    left the stop flag clear it goes round again when the program counter
    is at the start of a page, and stops when it is not.  [ADD r1, r2, #5]
    in the last word of a page advances the program counter to 0x2000; the
    claim has the loop stop there with the terminal [LinkBlock] of the
    location at 0x2000, and the code translates the instruction at 0x2000 as
    well and returns [ReturnToDispatch], whatever the fuel.  [ADD r1, r2,
    #5] at 0x1000 advances the program counter to 0x1004; the claim has the
    translation continue with the instruction at 0x1004, and the code
    returns the block of the first instruction alone. *)
Theorem page_test_is_inverted :
  (forall (R : Z -> Z) (D : Z -> option ArmDecoder.Instruction) (A : ArmImm8 -> Z -> Z)
          (fuel : nat) (t t1 : ArmTranslator),
     TranslateSingleArmInstruction R D A t = Ok (tt, t1) ->
     stop_compilation t1 = false ->
     Translate_loop R D A (S fuel) t
     = if Z.land (arm_pc (current t1)) 0xFFF =? 0
       then Translate_loop R D A fuel (count_instruction t1)
       else Some (Ok (count_instruction t1))) /\
  (exists t1,
     TranslateSingleArmInstruction (Read32 page_cross_program) DecodeArm ArmExpandImm
       (ArmTranslator_new (arm_location 0x1FFC ArmDecoder.AL)) = Ok (tt, t1) /\
     stop_compilation t1 = false /\
     arm_pc (current t1) = 0x2000 /\
     Z.land (arm_pc (current t1)) 0xFFF = 0) /\
  ~ (exists fuel blk,
       Translate page_cross_program fuel (arm_location 0x1FFC ArmDecoder.AL) = Some (Ok blk) /\
       terminal blk = MicroTerm.LinkBlock (arm_location 0x2000 ArmDecoder.AL)) /\
  Translate page_cross_program 2 (arm_location 0x1FFC ArmDecoder.AL)
  = Some (Ok {| location := arm_location 0x1FFC ArmDecoder.AL;
                instructions :=
                  [MicroGetGPR ArmDecoder.R2; MicroConstU32 5;
                   MicroInst MicroOp.Add [0; 1]%nat MicroArmFlags.None;
                   MicroConstU32 1;
                   MicroInst MicroOp.Add [2; 3]%nat MicroArmFlags.None];
                terminal := MicroTerm.ReturnToDispatch |}) /\
  (exists t1,
     TranslateSingleArmInstruction (Read32 (add_program ++ [(0x1004, 0xE2811001)]))
       DecodeArm ArmExpandImm (ArmTranslator_new AL_1000) = Ok (tt, t1) /\
     stop_compilation t1 = false /\
     arm_pc (current t1) = 0x1004 /\
     Z.land (arm_pc (current t1)) 0xFFF <> 0) /\
  forall fuel,
    Translate (add_program ++ [(0x1004, 0xE2811001)]) (S fuel) AL_1000
    = Some (Ok {| location := AL_1000;
                  instructions :=
                    [MicroGetGPR ArmDecoder.R2; MicroConstU32 5;
                     MicroInst MicroOp.Add [0; 1]%nat MicroArmFlags.None];
                  terminal := MicroTerm.ReturnToDispatch |}).
Proof.
  split; [|split; [|split; [|split; [|split]]]].
  - intros R D A fuel t t1 Hstep Hs.
    rewrite Translate_loop_unfold, Hstep, stop_compilation_count, Hs, current_count.
    by destruct (Z.land (arm_pc (current t1)) 0xFFF =? 0).
  - eexists. split; [vm_compute; reflexivity|]. by repeat split.
  - intros (fuel & blk & Hblk & Hterm).
    apply Translate_fuel_irrelevant in Hblk. vm_compute in Hblk.
    injection Hblk as <-. discriminate Hterm.
  - vm_compute. reflexivity.
  - eexists. split; [vm_compute; reflexivity|]. by repeat split.
  - intros fuel. unfold Translate. rewrite Translate_eq, Translate_loop_unfold.
    vm_compute. reflexivity.
Qed.

(** The polarity of the loop's page test: an [ADD] in the middle of a page
    ends the block after one instruction, with the stop flag clear. *)
Example Translate_stops_off_page_boundary :
  Translate (add_program ++ [(0x1004, 0xE2811001)]) 2 AL_1000
  = Some (Ok {| location := AL_1000;
                instructions :=
                  [MicroGetGPR ArmDecoder.R2; MicroConstU32 5;
                   MicroInst MicroOp.Add [0; 1]%nat MicroArmFlags.None];
                terminal := MicroTerm.ReturnToDispatch |}).
Proof. vm_compute. reflexivity. Qed.

(** ** C2: the write-back *)

(** C2 fails on the code.  After [ADD r1, r2, #5] the cache holds the [Add]
    node for [r1], which is no [GetGPR] of [r1]; the block returned ends
    with that [Add] node and holds no [SetGPR] for [r1]. *)
Theorem writeback_emits_no_SetGPR :
  exists t,
    Translate_state add_program 2 AL_1000 = Some (Ok t) /\
    Translate add_program 2 AL_1000 = Some (Ok (MicroBuilder.block (ir t))) /\
    reg_values t !! ArmDecoder.Register_index ArmDecoder.R1 = Some (Some 2%nat) /\
    body t = [MicroGetGPR ArmDecoder.R2; MicroConstU32 5;
              MicroInst MicroOp.Add [0; 1]%nat MicroArmFlags.None] /\
    Forall (fun v => GetOp v <> MicroOp.SetGPR) (body t).
Proof.
  eexists. split; [vm_compute; reflexivity|].
  split; [vm_compute; reflexivity|]. split; [reflexivity|]. split; [reflexivity|].
  by repeat constructor.
Qed.

(** ** C3: the condition test *)

(** C3 fails on the code.  [BLNE] carries the condition [NE], the block is
    entered under [AL]; the claim has the terminal [LinkBlock] of the
    location at 0x1000 under [NE].  [BL] falls back to the interpreter: the
    terminal is [Interpret] of the entry location. *)
Lemma condition_mismatch_counterexample :
  DecodeArm (Read32 blne_program 0x1000) = Some (ArmDecoder.BL ArmDecoder.NE 0) /\
  ArmDecoder.NE <> cond AL_1000 /\
  ~ (exists fuel blk,
       Translate blne_program fuel AL_1000 = Some (Ok blk) /\
       terminal blk = MicroTerm.LinkBlock (arm_location 0x1000 ArmDecoder.NE)) /\
  Translate blne_program 1 AL_1000
  = Some (Ok {| location := AL_1000; instructions := [];
                terminal := MicroTerm.Interpret AL_1000 |}).
Proof.
  split; [reflexivity|]. split; [discriminate|]. split.
  - intros (fuel & blk & Hblk & Hterm).
    apply Translate_fuel_irrelevant in Hblk. vm_compute in Hblk.
    injection Hblk as <-. discriminate Hterm.
  - vm_compute. reflexivity.
Qed.

(** [B] does not look at its condition either: under [AL], [BNE] links to
    a location that is still under [AL]. *)
Example B_ignores_its_condition :
  Translate [(0x1000, 0x1A000000)] 1 AL_1000
  = Some (Ok {| location := AL_1000; instructions := [];
                terminal := MicroTerm.LinkBlock AL_1000 |}).
Proof. vm_compute. reflexivity. Qed.

(** [ADDNE] in a block entered under [AL]. *)
Lemma condition_mismatch_links_block_witness :
  DecodeArm (Read32 addne_program (Z.land 0x1000 0xFFFFFFFC))
  = Some (ArmDecoder.ADD_imm ArmDecoder.NE false ArmDecoder.R2 ArmDecoder.R1 0 5) /\
  ArmDecoder.NE <> cond AL_1000 /\
  exists t',
    TranslateSingleArmInstruction (Read32 addne_program) DecodeArm ArmExpandImm
      (ArmTranslator_new AL_1000) = Ok (tt, t') /\
    body t' = [] /\
    term t' = MicroTerm.LinkBlock (arm_location 0x1000 ArmDecoder.NE) /\
    stop_compilation t' = true.
Proof.
  split; [reflexivity|]. split; [discriminate|].
  destruct (proj1 (condition_mismatch_links_block (Read32 addne_program) DecodeArm ArmExpandImm
                     (ArmTranslator_new AL_1000) 0)
              ArmDecoder.NE false ArmDecoder.R2 ArmDecoder.R1 0 5)
    as (t' & Hstep & Hbody & _ & Hterm & Hstop & _);
    [reflexivity | discriminate |].
  exists t'. by repeat split.
Defined.

(** ** C4: a block is always returned *)

(** A memory of zero words: the first word has no decoding. *)
Lemma Translate_never_fails_witness :
  DecodeArm (Read32 [] (Z.land (arm_pc AL_1000) 0xFFFFFFFC)) = None /\
  Translate [] 1 AL_1000
  = Some (Ok {| location := AL_1000; instructions := [];
                terminal := MicroTerm.Interpret AL_1000 |}).
Proof.
  split; [reflexivity|].
  apply (proj2 (proj2 (proj2 (Translate_never_fails (Read32 []) DecodeArm ArmExpandImm
                                AL_1000)))).
  reflexivity.
Defined.

(** ** C5: the target of a branch *)

(** The target the claim gives to [B]: the offset field, sign-extended from
    24 bits, shifted left by two, added to the address of the instruction
    plus eight. *)
Definition B_target_claimed (pc : Z) (imm24 : ArmImm24) : Z :=
  let offset := if Z.testbit imm24 23 then imm24 - 2 ^ 24 else imm24 in
  u32 (pc + 8 + Z.shiftl offset 2).

(** C5 fails on the code.  [B] with a zero offset field at 0x1000 is a
    branch to 0x1008.  The block returned has an empty body and a
    [LinkBlock] terminal, but the location it links is the one at 0x1000:
    the handler adds the raw field to [current.arm_pc]. *)
Theorem B_adds_raw_offset :
  DecodeArm (Read32 branch_program 0x1000) = Some (ArmDecoder.B ArmDecoder.AL 0) /\
  B_target_claimed 0x1000 0 = 0x1008 /\
  Translate branch_program 1 AL_1000
  = Some (Ok {| location := AL_1000; instructions := [];
                terminal := MicroTerm.LinkBlock (arm_location 0x1000 ArmDecoder.AL) |}) /\
  (forall c imm24 t,
     B c imm24 t
     = Ok (tt, stop_with (MicroTerm.LinkBlock
                            (set_arm_pc (u32 (arm_pc (current t) + imm24)) (current t))) t)).
Proof.
  split; [reflexivity|]. split; [reflexivity|]. split; [vm_compute; reflexivity|].
  apply B_eq.
Qed.

(** No offset field makes the handler's target the claimed one. *)
Lemma B_target_never_the_claimed_one pc imm24 :
  0 <= imm24 < 2 ^ 24 -> u32 (pc + imm24) <> B_target_claimed pc imm24.
Proof.
  intros Hrange. unfold B_target_claimed, u32. rewrite Z.shiftl_mul_pow2 by lia.
  destruct (Z.testbit imm24 23); intros Heq; Z.div_mod_to_equations; lia.
Qed.

(** ** C6: reads of the program counter *)

Example GetReg_PC_twice :
  exists t1 t2,
    GetReg ArmDecoder.PC (ArmTranslator_new AL_1000) = Ok (0%nat, t1) /\
    GetReg ArmDecoder.PC t1 = Ok (1%nat, t2) /\
    body t2 = [MicroConstU32 0x1008; MicroConstU32 0x1008] /\
    reg_values t2 = replicate 15 None.
Proof. eexists _, _. by repeat split. Qed.

(** In 32-bit arithmetic the value wraps at the top of the address space. *)
Example GetReg_PC_wraps :
  exists t1,
    GetReg ArmDecoder.PC (ArmTranslator_new (arm_location 0xFFFFFFFC ArmDecoder.AL))
    = Ok (0%nat, t1) /\
    body t1 = [MicroConstU32 4].
Proof. eexists. by split. Qed.

(** ** C7: reads of a cached register *)

(** Two reads of [r2] on a new translator. *)
Lemma GetReg_returns_cached_node_witness :
  ArmDecoder.R2 <> ArmDecoder.PC /\
  cache_wf (ArmTranslator_new AL_1000) /\
  exists v t1,
    GetReg ArmDecoder.R2 (ArmTranslator_new AL_1000) = Ok (v, t1) /\
    GetReg ArmDecoder.R2 t1 = Ok (v, t1).
Proof.
  split; [discriminate|]. split; [reflexivity|].
  destruct (GetReg_returns_cached_node ArmDecoder.R2 (ArmTranslator_new AL_1000))
    as (v & t1 & Hfirst & _ & _ & _ & Hagain & _); [discriminate | reflexivity |].
  by exists v, t1.
Defined.

Example GetReg_R2_twice :
  exists t1,
    GetReg ArmDecoder.R2 (ArmTranslator_new AL_1000) = Ok (0%nat, t1) /\
    GetReg ArmDecoder.R2 t1 = Ok (0%nat, t1) /\
    body t1 = [MicroGetGPR ArmDecoder.R2].
Proof. eexists. split; [vm_compute; reflexivity|]. split; reflexivity. Qed.

(** ** C8: the write-flags of [ADD_imm] *)

(** [ADDS r1, r2, #5] on a new translator. *)
Lemma write_flags_within_defaults_witness :
  cache_wf (ArmTranslator_new AL_1000) /\
  ArmDecoder.AL = cond (current (ArmTranslator_new AL_1000)) /\
  exists Rn t1 t',
    GetReg ArmDecoder.R2 (ArmTranslator_new AL_1000) = Ok (Rn, t1) /\
    ADD_imm ArmExpandImm ArmDecoder.AL true ArmDecoder.R2 ArmDecoder.R1 0 5
      (ArmTranslator_new AL_1000) = Ok (tt, t') /\
    body t' !! S (length (body t1))
    = Some (MicroInst MicroOp.Add [Rn; length (body t1)] MicroArmFlags.NZCV).
Proof.
  split; [reflexivity|]. split; [reflexivity|].
  apply (proj1 (proj2 (write_flags_within_defaults (Read32 add_program) DecodeArm
                         ArmExpandImm))
           (ArmTranslator_new AL_1000) ArmDecoder.AL true ArmDecoder.R2 ArmDecoder.R1 0 5);
    reflexivity.
Defined.

Example ADDS_writes_NZCV :
  Translate [(0x1000, 0xE2921005)] 2 AL_1000
  = Some (Ok {| location := AL_1000;
                instructions :=
                  [MicroGetGPR ArmDecoder.R2; MicroConstU32 5;
                   MicroInst MicroOp.Add [0; 1]%nat MicroArmFlags.NZCV];
                terminal := MicroTerm.ReturnToDispatch |}).
Proof. vm_compute. reflexivity. Qed.

(** ** C9: the default terminal *)

(** [ADD r1, r2, #5] in the middle of a page leaves the loop on the page
    test. *)
Lemma Translate_default_terminal_witness :
  exists t,
    Translate_loop (Read32 add_program) DecodeArm ArmExpandImm 1 (ArmTranslator_new AL_1000)
    = Some (Ok t) /\
    stop_compilation t = false /\
    Translate add_program 1 AL_1000 = Some (Ok (MicroBuilder.block (ir t))) /\
    terminal (MicroBuilder.block (ir t)) = MicroTerm.ReturnToDispatch.
Proof.
  eexists. split; [vm_compute; reflexivity|]. split; [reflexivity|].
  split.
  - refine (proj1 (proj2 (Translate_default_terminal (Read32 add_program) DecodeArm
                            ArmExpandImm 1 AL_1000 _ _ _))); reflexivity.
  - reflexivity.
Defined.

(** ** C10: the bounds of the cache *)

(** [ADD pc, pc, #5] on a new translator. *)
Lemma SetReg_within_bounds_witness :
  cache_wf (ArmTranslator_new AL_1000) /\
  SetReg ArmDecoder.PC 0%nat (ArmTranslator_new AL_1000) = Abort OutOfBounds /\
  exists t',
    ADD_imm ArmExpandImm ArmDecoder.AL false ArmDecoder.PC ArmDecoder.PC 0 5
      (ArmTranslator_new AL_1000) = Ok (tt, t') /\
    length (reg_values t') = 15%nat.
Proof.
  split; [reflexivity|].
  destruct (SetReg_within_bounds ArmExpandImm (ArmTranslator_new AL_1000))
    as (_ & _ & _ & Hpc & _ & Hadd); [reflexivity|].
  split; [apply Hpc | apply Hadd].
Defined.

Example ADD_to_PC_takes_the_PC_path :
  Translate add_pc_program 2 AL_1000
  = Some (Ok {| location := AL_1000;
                instructions :=
                  [MicroConstU32 0x1008; MicroConstU32 5;
                   MicroInst MicroOp.Add [0; 1]%nat MicroArmFlags.None;
                   MicroInst MicroOp.AluWritePC [2]%nat MicroArmFlags.None];
                terminal := MicroTerm.ReturnToDispatch |}).
Proof. vm_compute. reflexivity. Qed.

(** ** The further properties on concrete programs *)

(** X1 on the two instructions across a page boundary. *)
Lemma Translate_at_most_two_instructions_witness :
  exists t,
    Translate_state page_cross_program 2 (arm_location 0x1FFC ArmDecoder.AL) = Some (Ok t) /\
    instructions_translated t = 2 /\
    (length (body t) <= 7)%nat.
Proof.
  eexists. split; [vm_compute; reflexivity|]. split; [reflexivity|].
  refine (proj2 (Translate_at_most_two_instructions (Read32 page_cross_program) DecodeArm
                   ArmExpandImm 2 (arm_location 0x1FFC ArmDecoder.AL) _ _)).
  vm_compute. reflexivity.
Defined.

(** X2 on [ADD r1, r2, #5]. *)
Lemma only_ADD_imm_extends_a_block_witness :
  cache_wf (ArmTranslator_new AL_1000) /\
  stop_compilation (ArmTranslator_new AL_1000) = false /\
  exists t1,
    TranslateSingleArmInstruction (Read32 add_program) DecodeArm ArmExpandImm
      (ArmTranslator_new AL_1000) = Ok (tt, t1) /\
    stop_compilation t1 = false.
Proof.
  split; [reflexivity|]. split; [reflexivity|].
  eexists. split; [vm_compute; reflexivity|].
  refine (proj2 (only_ADD_imm_extends_a_block (Read32 add_program) DecodeArm ArmExpandImm
                   (ArmTranslator_new AL_1000) _ _ _ _) _);
    [reflexivity | reflexivity | vm_compute; reflexivity |].
  exists ArmDecoder.AL, false, ArmDecoder.R2, ArmDecoder.R1, 0, 5.
  split; [reflexivity|]. split; [reflexivity | discriminate].
Defined.

(** X3 on the two instructions across a page boundary. *)
Lemma Translate_body_is_topological_witness :
  exists t,
    Translate_state page_cross_program 2 (arm_location 0x1FFC ArmDecoder.AL) = Some (Ok t) /\
    forall reg v,
      reg_values t !! ArmDecoder.Register_index reg = Some (Some v) -> is_Some (body t !! v).
Proof.
  eexists. split; [vm_compute; reflexivity|].
  refine (proj2 (Translate_body_is_topological (Read32 page_cross_program) DecodeArm
                   ArmExpandImm 2 (arm_location 0x1FFC ArmDecoder.AL) _ _)).
  vm_compute. reflexivity.
Defined.

(** X4 on the two instructions across a page boundary. *)
Lemma Translate_reads_each_register_once_witness :
  exists t,
    Translate_state page_cross_program 2 (arm_location 0x1FFC ArmDecoder.AL) = Some (Ok t) /\
    forall i j reg,
      body t !! i = Some (MicroGetGPR reg) -> body t !! j = Some (MicroGetGPR reg) -> i = j.
Proof.
  eexists. split; [vm_compute; reflexivity|].
  refine (proj1 (Translate_reads_each_register_once (Read32 page_cross_program) DecodeArm
                   ArmExpandImm 2 (arm_location 0x1FFC ArmDecoder.AL) _ _)).
  vm_compute. reflexivity.
Defined.

(** X5 on the branch. *)
Lemma Translate_terminal_shape_witness :
  exists blk,
    Translate branch_program 1 AL_1000 = Some (Ok blk) /\
    terminal blk <> MicroTerm.PopRSBHint.
Proof.
  eexists. split; [vm_compute; reflexivity|].
  match goal with
  | |- terminal ?blk <> _ =>
      pose proof (Translate_terminal_shape (Read32 branch_program) DecodeArm ArmExpandImm 1
                    AL_1000 blk) as Hshape
  end.
  destruct Hshape as [(v & H)|[H|[(pc & _ & H)|(pc & c & _ & H)]]];
    [vm_compute; reflexivity | discriminate H | rewrite H; discriminate ..].
Defined.

(** X7 on [ADD pc, pc, #5]. *)
Lemma Translate_emits_four_opcodes_witness :
  exists blk,
    Translate add_pc_program 2 AL_1000 = Some (Ok blk) /\
    Forall (fun v => GetOp v = MicroOp.ConstU32 \/ GetOp v = MicroOp.GetGPR \/
                     GetOp v = MicroOp.Add \/ GetOp v = MicroOp.AluWritePC)
      (instructions blk).
Proof.
  eexists. split; [vm_compute; reflexivity|].
  apply (Translate_emits_four_opcodes (Read32 add_pc_program) DecodeArm ArmExpandImm 2
           AL_1000).
  vm_compute. reflexivity.
Defined.

(** X8 on [ADD r1, r2, #5]. *)
Lemma Translate_is_one_shot_witness :
  exists t',
    Translate_state add_program 2 AL_1000 = Some (Ok t') /\
    stop_compilation t' = true.
Proof.
  eexists. split; [vm_compute; reflexivity|].
  refine (proj1 (proj2 (Translate_is_one_shot (Read32 add_program) DecodeArm ArmExpandImm 2
                          (ArmTranslator_new AL_1000) _ _))).
  vm_compute. reflexivity.
Defined.

(** X9 on [ADD r1, r2, #5]. *)
Lemma ADD_imm_result_is_forwarded_witness :
  cache_wf (ArmTranslator_new AL_1000) /\
  ArmDecoder.AL = cond (current (ArmTranslator_new AL_1000)) /\
  ArmDecoder.R1 <> ArmDecoder.PC /\
  exists result t',
    ADD_imm ArmExpandImm ArmDecoder.AL false ArmDecoder.R2 ArmDecoder.R1 0 5
      (ArmTranslator_new AL_1000) = Ok (tt, t') /\
    GetReg ArmDecoder.R1 t' = Ok (result, t').
Proof.
  split; [reflexivity|]. split; [reflexivity|]. split; [discriminate|].
  destruct (ADD_imm_result_is_forwarded ArmExpandImm ArmDecoder.AL false ArmDecoder.R2
              ArmDecoder.R1 0 5 (ArmTranslator_new AL_1000))
    as (Rn & imm32 & result & t' & Hadd & _ & _ & _ & Hget & _);
    [reflexivity | reflexivity | discriminate |].
  by exists result, t'.
Defined.

(** X10 on two memories that differ away from the block. *)
Lemma Translate_reads_at_most_two_words_witness :
  Read32 add_program (Z.land (arm_pc AL_1000) 0xFFFFFFFC)
  = Read32 (add_program ++ [(0x3000, 1)]) (Z.land (arm_pc AL_1000) 0xFFFFFFFC) /\
  Read32 add_program 0x3000 <> Read32 (add_program ++ [(0x3000, 1)]) 0x3000 /\
  Translate add_program 2 AL_1000 = Translate (add_program ++ [(0x3000, 1)]) 2 AL_1000.
Proof.
  split; [reflexivity|]. split; [discriminate|].
  apply (Translate_reads_at_most_two_words DecodeArm ArmExpandImm (Read32 add_program)
           (Read32 (add_program ++ [(0x3000, 1)])) AL_1000); [reflexivity|].
  intros Hpage. vm_compute in Hpage. discriminate Hpage.
Defined.

(** X11: the same words at a Thumb location. *)
Example Translate_at_a_Thumb_location :
  Translate add_program 2
    {| arm_pc := 0x1000; TFlag := true; EFlag := false; cond := ArmDecoder.AL |}
  = Some (Ok {| location := {| arm_pc := 0x1000; TFlag := true; EFlag := false;
                               cond := ArmDecoder.AL |};
                instructions :=
                  [MicroGetGPR ArmDecoder.R2; MicroConstU32 5;
                   MicroInst MicroOp.Add [0; 1]%nat MicroArmFlags.None];
                terminal := MicroTerm.ReturnToDispatch |}).
Proof. vm_compute. reflexivity. Qed.

(** X12 on the branch. *)
Lemma only_ADD_imm_emits_witness :
  exists t1,
    TranslateSingleArmInstruction (Read32 branch_program) DecodeArm ArmExpandImm
      (ArmTranslator_new AL_1000) = Ok (tt, t1) /\
    body t1 = [] /\ stop_compilation t1 = true.
Proof.
  eexists. split; [vm_compute; reflexivity|].
  match goal with
  | |- body ?t1 = _ /\ _ =>
      pose proof (only_ADD_imm_emits (Read32 branch_program) DecodeArm ArmExpandImm
                    (ArmTranslator_new AL_1000) t1) as Hemits
  end.
  destruct Hemits as (Hbody & _ & Hstop).
  - vm_compute. reflexivity.
  - intros S_ n d rotate imm8. vm_compute. discriminate.
  - by split.
Defined.
